(** * Semantic relatedness over the RoWordNet taxonomy

    A shallow embedding of the taxonomy engine of the RoWordNet similarity
    backend: [rowordnet_loader.py] (graph queries, depth, information
    content, shortest path, least common subsumer), the eight measures of
    [algorithms/] with their common base class, and from [main.py] the
    [/similarity] endpoint after parsing (candidate selection and the
    per-measure dispatch) and [get_synset_by_spec].

    Conventions of the embedding.
    - A Python [str] is the list of its Unicode code points ([list N]);
      [U "..."] writes an ASCII literal.
    - A Python [int] is a [Z].  A Python [float] is an exact rational [Q]:
      rounding is not modelled, and [math.log] is a parameter [ln] of the
      definitions that use it.
    - A [dict] is a [gmap], a [set] a [gset], a [deque] used as a FIFO a
      [list] (pop at the head, append at the tail).
    - The loader object is a record; the methods that write one of its
      caches return the updated record next to their result.
    - A [while] loop is a step function run by [while_loop] with a fuel
      bound computed from the graph.  For every loop a lemma
      ([get_depth_bfs_spec], [count_descendants_bfs_total],
      [ancestors_bfs_total], [fsp_bfs_total], [hso_bfs_total]) shows that
      this fuel is enough, so the loop exits by itself and the value
      substituted when the fuel runs out is never used. *)

From Stdlib Require Import ZArith QArith.
From stdpp Require Import gmap strings list fin_maps sets pretty sorting.
Close Scope Q_scope.

(** ** Python strings *)

Abbreviation str := (list N).

Definition U (s : string) : str :=
  Ascii.N_of_ascii <$> String.list_ascii_of_string s.

Definition in_range (lo hi c : N) : bool := ((lo <=? c) && (c <=? hi))%N.

(** [str.lower()], one code point at a time, on Basic Latin, Latin-1
    Supplement and Latin Extended-A, plus the Romanian comma-below capitals
    U+0218 and U+021A.  Code points outside these blocks are left as they
    are; the texts used below stay inside them. *)
Definition lower_cp (c : N) : list N :=
  if in_range 65 90 c then [(c + 32)%N]
  else if in_range 192 222 c && negb (c =? 215)%N then [(c + 32)%N]
  else if (c =? 304)%N then [105%N; 775%N]
  else if (c =? 376)%N then [255%N]
  else if (in_range 256 311 c || in_range 330 375 c) && N.even c then [(c + 1)%N]
  else if (in_range 313 328 c || in_range 377 382 c) && N.odd c then [(c + 1)%N]
  else if (c =? 536)%N || (c =? 538)%N then [(c + 1)%N]
  else [c].

Definition lower (s : str) : str := s ≫= lower_cp.

Fixpoint startswith (p s : str) : bool :=
  match p, s with
  | [], _ => true
  | _ :: _, [] => false
  | a :: p', b :: s' => (a =? b)%N && startswith p' s'
  end.

(** [needle in hay] on strings. *)
Fixpoint contains (needle hay : str) : bool :=
  startswith needle hay ||
  match hay with
  | [] => false
  | _ :: hay' => contains needle hay'
  end.

(** ** The rowordnet library object *)

(** The [pos] attribute of a library synset: the loader's [pos_map] is keyed
    by strings and by integers, and falls back on [str(pos)] for anything
    else (an enumeration member, represented here by its printed name). *)
Inductive pos_value :=
  | PosStr (s : str)
  | PosInt (z : Z)
  | PosEnum (name : str).

Record Synset := {
  syn_id : str;
  syn_pos : pos_value;
  syn_literals : list str;
  syn_definition : option str
}.

(** [rwn.synsets()] lists the identifiers, [rwn.synset(id)] returns the
    object or raises, [rwn.outbound_relations(id)] returns the
    [(target, relation type)] pairs or raises for an identifier that is not
    a node of the graph.  A raised exception is [None]. *)
Record RoWordNet := {
  rwn_synsets : list Synset;
  rwn_relations : gmap str (list (str * str))
}.

Definition synsets (g : RoWordNet) : list str := syn_id <$> rwn_synsets g.

Definition synset (g : RoWordNet) (synset_id : str) : option Synset :=
  find (λ s, bool_decide (syn_id s = synset_id)) (rwn_synsets g).

Definition outbound_relations (g : RoWordNet) (synset_id : str)
  : option (list (str * str)) :=
  rwn_relations g !! synset_id.

(** ** The loader *)

Record RoWordNetLoader := {
  rwn : RoWordNet;
  word_to_synsets : gmap str (list str);
  synset_cache : gmap str Synset;
  _depth_cache : gmap str Z;
  _ic_cache : gmap str Q;
  _max_depth : gmap str Z;
  _descendant_counts : gmap str Z
}.

Definition set_synset_cache (L : RoWordNetLoader) (c : gmap str Synset) :=
  {| rwn := rwn L; word_to_synsets := word_to_synsets L; synset_cache := c;
     _depth_cache := _depth_cache L; _ic_cache := _ic_cache L;
     _max_depth := _max_depth L; _descendant_counts := _descendant_counts L |}.

Definition set_depth_cache (L : RoWordNetLoader) (c : gmap str Z) :=
  {| rwn := rwn L; word_to_synsets := word_to_synsets L;
     synset_cache := synset_cache L;
     _depth_cache := c; _ic_cache := _ic_cache L;
     _max_depth := _max_depth L; _descendant_counts := _descendant_counts L |}.

Definition set_ic_cache (L : RoWordNetLoader) (c : gmap str Q) :=
  {| rwn := rwn L; word_to_synsets := word_to_synsets L;
     synset_cache := synset_cache L;
     _depth_cache := _depth_cache L; _ic_cache := c;
     _max_depth := _max_depth L; _descendant_counts := _descendant_counts L |}.

Definition set_descendant_counts (L : RoWordNetLoader) (c : gmap str Z) :=
  {| rwn := rwn L; word_to_synsets := word_to_synsets L;
     synset_cache := synset_cache L;
     _depth_cache := _depth_cache L; _ic_cache := _ic_cache L;
     _max_depth := _max_depth L; _descendant_counts := c |}.

(** Methods that may write a cache: the result and the loader after the
    call. *)
Definition Run (A : Type) : Type := RoWordNetLoader → A * RoWordNetLoader.

#[global] Instance Run_ret : MRet Run := λ A x L, (x, L).
#[global] Instance Run_bind : MBind Run :=
  λ A B f m L, let '(x, L') := m L in f x L'.

(** [_build_word_index]: one pass over [rwn.synsets()], filling the synset
    cache and appending the identifier to the entry of each lowercased
    literal. *)
Definition index_literal (synset_id : str) (w2s : gmap str (list str))
    (literal : str) : gmap str (list str) :=
  let word_lower := lower literal in
  <[word_lower := default [] (w2s !! word_lower) ++ [synset_id]]> w2s.

Definition index_synset (g : RoWordNet)
    (acc : gmap str (list str) * gmap str Synset) (synset_id : str)
  : gmap str (list str) * gmap str Synset :=
  match synset g synset_id with
  | Some s =>
      (foldl (index_literal synset_id) acc.1 (syn_literals s),
       <[synset_id := s]> acc.2)
  | None => acc
  end.

Definition _build_word_index (g : RoWordNet)
  : gmap str (list str) * gmap str Synset :=
  foldl (index_synset g) (∅, ∅) (synsets g).

(** [RoWordNetLoader.__init__]. *)
Definition new_loader (g : RoWordNet) : RoWordNetLoader :=
  let idx := _build_word_index g in
  {| rwn := g; word_to_synsets := idx.1; synset_cache := idx.2;
     _depth_cache := ∅; _ic_cache := ∅;
     _max_depth :=
       {[ U "n" := 20%Z; U "v" := 15%Z; U "a" := 10%Z; U "r" := 10%Z ]};
     _descendant_counts := ∅ |}.

Definition get_synsets_for_word (L : RoWordNetLoader) (word : str)
  : list Synset :=
  let word_lower := lower word in
  let synset_ids := default [] (word_to_synsets L !! word_lower) in
  omap (λ sid, synset_cache L !! sid) synset_ids.

Definition get_synset (synset_id : str) : Run (option Synset) := λ L,
  match synset_cache L !! synset_id with
  | Some s => (Some s, L)
  | None =>
      match synset (rwn L) synset_id with
      | Some s => (Some s, set_synset_cache L (<[synset_id := s]> (synset_cache L)))
      | None => (None, L)
      end
  end.

Definition get_synset_id (s : Synset) : str := syn_id s.

Definition pos_map (k : pos_value) : option str :=
  match k with
  | PosStr s =>
      if bool_decide (s = U "n") || bool_decide (s = U "0")
         || bool_decide (s = U "NOUN") then Some (U "n")
      else if bool_decide (s = U "v") || bool_decide (s = U "1")
         || bool_decide (s = U "VERB") then Some (U "v")
      else if bool_decide (s = U "a") || bool_decide (s = U "2")
         || bool_decide (s = U "ADJ") then Some (U "a")
      else if bool_decide (s = U "r") || bool_decide (s = U "3")
         || bool_decide (s = U "ADV") then Some (U "r")
      else None
  | PosInt z =>
      if (z =? 0)%Z then Some (U "n") else if (z =? 1)%Z then Some (U "v")
      else if (z =? 2)%Z then Some (U "a") else if (z =? 3)%Z then Some (U "r")
      else None
  | PosEnum _ => None
  end.

(** [str(pos)]. *)
Definition pos_str (p : pos_value) : str :=
  match p with
  | PosStr s => s
  | PosInt z => U (pretty z)
  | PosEnum name => name
  end.

Definition get_synset_pos (s : Synset) : str :=
  let pos := syn_pos s in
  default (default (U "n") (pos_map (PosStr (pos_str pos)))) (pos_map pos).

Definition get_synset_literals (s : Synset) : list str := syn_literals s.

Definition get_synset_definition (s : Synset) : str :=
  default [] (syn_definition s).

Definition relation_targets (label : str) (relations : list (str * str))
  : list str :=
  (filter (λ r, contains label (lower r.2) = true) relations).*1.

Definition get_hypernyms (g : RoWordNet) (synset_id : str) : list str :=
  match outbound_relations g synset_id with
  | Some relations => relation_targets (U "hypernym") relations
  | None => []
  end.

Definition get_hyponyms (g : RoWordNet) (synset_id : str) : list str :=
  match outbound_relations g synset_id with
  | Some relations => relation_targets (U "hyponym") relations
  | None => []
  end.

(** ** Loops *)

(** One iteration either continues with a new state or leaves the loop
    (a [return], or the loop condition turning false) with a result. *)
Fixpoint while_loop {S R : Type} (step : S → S + R) (fuel : nat) (s : S)
  : option R :=
  match fuel with
  | O => None
  | Datatypes.S fuel' =>
      match step s with
      | inl s' => while_loop step fuel' s'
      | inr r => Some r
      end
  end.

(** An upper bound on the out-degree of every node. *)
Definition max_degree (g : RoWordNet) : nat :=
  max_list (length <$> (map_to_list (rwn_relations g)).*2).

(** ** [get_depth] *)

Definition get_depth_step (g : RoWordNet) (st : gset str * list (str * Z))
  : (gset str * list (str * Z)) + Z :=
  let '(visited, queue) := st in
  match queue with
  | [] => inr 1%Z
  | (current_id, depth) :: queue =>
      if decide (current_id ∈ visited) then inl (visited, queue)
      else
        let visited := {[current_id]} ∪ visited in
        let hypernyms := get_hypernyms g current_id in
        match hypernyms with
        | [] => inr depth
        | _ =>
            inl (visited,
                 queue ++ ((λ h, (h, (depth + 1)%Z)) <$>
                           filter (λ h, h ∉ visited) hypernyms))
        end
  end.

Definition get_depth_fuel (g : RoWordNet) : nat :=
  (max_degree g + 1) * size (dom (rwn_relations g)) + 2.

Definition get_depth_bfs (g : RoWordNet) (synset_id : str) : option Z :=
  while_loop (get_depth_step g) (get_depth_fuel g) (∅, [(synset_id, 1%Z)]).

(** The cached method.  [0] stands for a search that ran out of fuel, which
    [get_depth_bfs_spec] excludes. *)
Definition get_depth (synset_id : str) : Run Z := λ L,
  match _depth_cache L !! synset_id with
  | Some d => (d, L)
  | None =>
      let d := default 0%Z (get_depth_bfs (rwn L) synset_id) in
      (d, set_depth_cache L (<[synset_id := d]> (_depth_cache L)))
  end.

Definition get_max_depth (L : RoWordNetLoader) (pos : pos_value) : Z :=
  match pos with
  | PosStr s => default 20%Z (_max_depth L !! s)
  | _ => 20%Z
  end.

(** ** [_count_descendants] and [get_information_content] *)

Definition count_descendants_step (g : RoWordNet)
    (st : gset str * list str * Z) : (gset str * list str * Z) + Z :=
  let '(visited, queue, count) := st in
  match queue with
  | [] => inr count
  | current :: queue =>
      if decide (current ∈ visited) then inl (visited, queue, count)
      else
        let visited := {[current]} ∪ visited in
        inl (visited,
             queue ++ filter (λ h, h ∉ visited) (get_hyponyms g current),
             (count + 1)%Z)
  end.

Definition count_descendants_bfs (g : RoWordNet) (synset_id : str)
  : option Z :=
  while_loop (count_descendants_step g) (get_depth_fuel g)
    (∅, [synset_id], 0%Z).

Definition _count_descendants (synset_id : str) : Run Z := λ L,
  match _descendant_counts L !! synset_id with
  | Some c => (c, L)
  | None =>
      let count := default 0%Z (count_descendants_bfs (rwn L) synset_id) in
      (count,
       set_descendant_counts L (<[synset_id := count]> (_descendant_counts L)))
  end.

Definition Qltb (a b : Q) : bool := negb (Qle_bool b a).

Section information_content.
(** [math.log] on floats. *)
Variable ln : Q → Q.

Definition ic_of_count (L : RoWordNetLoader) (count : Z) : Q :=
  let total := (Z.of_nat (size (synset_cache L)) + 1)%Z in
  let prob := (inject_Z count / inject_Z total)%Q in
  if Qltb 0 prob then (- ln prob)%Q else 0%Q.

Definition get_information_content (synset_id : str) : Run Q := λ L,
  match _ic_cache L !! synset_id with
  | Some ic => (ic, L)
  | None =>
      let '(count, L) := _count_descendants synset_id L in
      let ic := ic_of_count L count in
      (ic, set_ic_cache L (<[synset_id := ic]> (_ic_cache L)))
  end.
End information_content.

(** ** [find_shortest_path_length] *)

(** The [for neighbor in neighbors] loop of one expansion: [mine] and
    [queue] belong to the side being expanded, [other] is the other side's
    distance table. *)
Fixpoint expand_neighbors (dist : Z) (neighbors : list str)
    (mine other : gmap str Z) (queue : list (str * Z))
  : (gmap str Z * list (str * Z)) + Z :=
  match neighbors with
  | [] => inl (mine, queue)
  | neighbor :: rest =>
      match mine !! neighbor with
      | Some _ => expand_neighbors dist rest mine other queue
      | None =>
          let mine := <[neighbor := (dist + 1)%Z]> mine in
          let queue := queue ++ [(neighbor, (dist + 1)%Z)] in
          match other !! neighbor with
          | Some d => inr (dist + 1 + d)%Z
          | None => expand_neighbors dist rest mine other queue
          end
      end
  end.

Definition expand_side (g : RoWordNet) (mine other : gmap str Z)
    (queue : list (str * Z)) : (gmap str Z * list (str * Z)) + Z :=
  match queue with
  | [] => inl (mine, queue)
  | (current, dist) :: queue =>
      match other !! current with
      | Some d => inr (dist + d)%Z
      | None =>
          expand_neighbors dist
            (get_hypernyms g current ++ get_hyponyms g current)
            mine other queue
      end
  end.

Definition fsp_state : Type :=
  gmap str Z * gmap str Z * list (str * Z) * list (str * Z).

Definition fsp_step (g : RoWordNet) (st : fsp_state) : fsp_state + Z :=
  let '(visited1, visited2, queue1, queue2) := st in
  match queue1, queue2 with
  | [], [] => inr (-1)%Z
  | _, _ =>
      match expand_side g visited1 visited2 queue1 with
      | inr r => inr r
      | inl (visited1, queue1) =>
          match expand_side g visited2 visited1 queue2 with
          | inr r => inr r
          | inl (visited2, queue2) =>
              inl (visited1, visited2, queue1, queue2)
          end
      end
  end.

(** Every identifier that some relation points to. *)
Definition all_targets (g : RoWordNet) : gset str :=
  list_to_set ((mjoin (map_to_list (rwn_relations g)).*2).*1).

Definition fsp_fuel (g : RoWordNet) : nat := 4 * size (all_targets g) + 3.

Definition fsp_bfs (g : RoWordNet) (synset1_id synset2_id : str) : option Z :=
  while_loop (fsp_step g) (fsp_fuel g)
    ({[synset1_id := 0%Z]}, {[synset2_id := 0%Z]},
     [(synset1_id, 0%Z)], [(synset2_id, 0%Z)]).

(** [-1] is the code's "no path"; [-2] stands for a search that ran out of
    fuel, which [fsp_bfs_total] excludes. *)
Definition find_shortest_path_length (g : RoWordNet)
    (synset1_id synset2_id : str) : Z :=
  if decide (synset1_id = synset2_id) then 0%Z
  else default (-2)%Z (fsp_bfs g synset1_id synset2_id).

(** ** [_get_all_ancestors] and [find_lcs] *)

Fixpoint add_ancestors (hypernyms : list str) (ancestors : gset str)
    (queue : list str) : gset str * list str :=
  match hypernyms with
  | [] => (ancestors, queue)
  | hypernym :: rest =>
      if decide (hypernym ∈ ancestors) then add_ancestors rest ancestors queue
      else add_ancestors rest ({[hypernym]} ∪ ancestors) (queue ++ [hypernym])
  end.

Definition ancestors_step (g : RoWordNet) (st : gset str * list str)
  : (gset str * list str) + gset str :=
  let '(ancestors, queue) := st in
  match queue with
  | [] => inr ancestors
  | current :: queue =>
      inl (add_ancestors (get_hypernyms g current) ancestors queue)
  end.

Definition ancestors_fuel (g : RoWordNet) : nat := 2 * size (all_targets g) + 3.

Definition ancestors_bfs (g : RoWordNet) (synset_id : str)
  : option (gset str) :=
  while_loop (ancestors_step g) (ancestors_fuel g) (∅, [synset_id]).

Definition _get_all_ancestors (g : RoWordNet) (synset_id : str) : gset str :=
  default ∅ (ancestors_bfs g synset_id).

(** The [for ancestor_id in common] loop.  Python leaves the iteration order
    of a set unspecified; the list it runs over here is [elements common]. *)
Fixpoint deepest_of (ids : list str) (deepest : option str) (max_depth : Z)
  : Run (option str) :=
  match ids with
  | [] => mret deepest
  | ancestor_id :: rest =>
      depth ← get_depth ancestor_id;
      if (max_depth <? depth)%Z then deepest_of rest (Some ancestor_id) depth
      else deepest_of rest deepest max_depth
  end.

Definition common_ancestors (g : RoWordNet) (synset1_id synset2_id : str)
  : gset str :=
  let ancestors1 := {[synset1_id]} ∪ _get_all_ancestors g synset1_id in
  let ancestors2 := {[synset2_id]} ∪ _get_all_ancestors g synset2_id in
  ancestors1 ∩ ancestors2.

Definition find_lcs (synset1_id synset2_id : str) : Run (option str) := λ L,
  if decide (synset1_id = synset2_id) then (Some synset1_id, L)
  else
    let common := common_ancestors (rwn L) synset1_id synset2_id in
    if decide (common = ∅) then (None, L)
    else deepest_of (elements common) None (-1)%Z L.

Definition get_definition (synset_id : str) : Run str :=
  s ← get_synset synset_id;
  mret (match s with
        | Some s => get_synset_definition s
        | None => []
        end).

Definition get_related_synsets (g : RoWordNet) (synset_id : str) : list str :=
  get_hypernyms g synset_id ++ get_hyponyms g synset_id.

(** ** The measures *)

(** [BaseSimilarity]: the abstract method.  Every measure holds the shared
    loader, which [Run] threads through the calls. *)
Class BaseSimilarity := {
  calculate_synset_similarity : str → str → Run Q
}.

(** [max(iterable, key=...)] on a non-empty sequence: the first element
    whose key is maximal. *)
Definition py_max {A : Type} (key : A → Q) (x : A) (xs : list A) : A :=
  foldl (λ best y, if Qltb (key best) (key y) then y else best) x xs.

Section base.
Context (alg : BaseSimilarity).

Fixpoint compare_with (s1 : Synset) (synsets2 : list Synset)
    (results : list (str * str * Q)) : Run (list (str * str * Q)) :=
  match synsets2 with
  | [] => mret results
  | s2 :: rest =>
      let s1_id := get_synset_id s1 in
      let s2_id := get_synset_id s2 in
      let s1_pos := get_synset_pos s1 in
      let s2_pos := get_synset_pos s2 in
      if decide (s1_pos = s2_pos) then
        sim ← calculate_synset_similarity s1_id s2_id;
        compare_with s1 rest (results ++ [(s1_id, s2_id, sim)])
      else compare_with s1 rest results
  end.

Fixpoint compare_all (synsets1 synsets2 : list Synset)
    (results : list (str * str * Q)) : Run (list (str * str * Q)) :=
  match synsets1 with
  | [] => mret results
  | s1 :: rest =>
      results ← compare_with s1 synsets2 results;
      compare_all rest synsets2 results
  end.

Definition calculate_word_similarity (word1 word2 : str)
  : Run (list (str * str * Q)) := λ L,
  let synsets1 := get_synsets_for_word L word1 in
  let synsets2 := get_synsets_for_word L word2 in
  match synsets1, synsets2 with
  | [], _ | _, [] => ([], L)
  | _, _ => compare_all synsets1 synsets2 [] L
  end.

Definition get_max_similarity (word1 word2 : str) : Run Q :=
  results ← calculate_word_similarity word1 word2;
  mret (match results with
        | [] => 0%Q
        | r :: rs => py_max id r.2 (snd <$> rs)
        end).

Definition get_best_pair (word1 word2 : str)
  : Run (option (str * str * Q)) :=
  results ← calculate_word_similarity word1 word2;
  mret (match results with
        | [] => None
        | r :: rs => Some (py_max snd r rs)
        end).
End base.

(** *** PATH *)

Definition path_similarity (synset1_id synset2_id : str) : Run Q := λ L,
  if decide (synset1_id = synset2_id) then (1%Q, L)
  else
    let path_length := find_shortest_path_length (rwn L) synset1_id synset2_id in
    if (path_length <=? 0)%Z then (0%Q, L)
    else ((1 / inject_Z (path_length + 1))%Q, L).

Definition PathSimilarity : BaseSimilarity :=
  {| calculate_synset_similarity := path_similarity |}.

(** *** WUP *)

Definition wup_similarity (synset1_id synset2_id : str) : Run Q :=
  if decide (synset1_id = synset2_id) then mret 1%Q
  else
    lcs_id ← find_lcs synset1_id synset2_id;
    match lcs_id with
    | None => mret 0%Q
    | Some lcs_id =>
        depth_lcs ← get_depth lcs_id;
        depth_s1 ← get_depth synset1_id;
        depth_s2 ← get_depth synset2_id;
        let denominator := (depth_s1 + depth_s2)%Z in
        if (denominator =? 0)%Z then mret 0%Q
        else mret ((2 * inject_Z depth_lcs) / inject_Z denominator)%Q
    end.

Definition WupSimilarity : BaseSimilarity :=
  {| calculate_synset_similarity := wup_similarity |}.

Section ic_measures.
Variable ln : Q → Q.

(** *** LCH *)

Definition pos_or_noun (s : option Synset) : pos_value :=
  match s with
  | Some s => syn_pos s
  | None => PosStr (U "n")
  end.

Definition lch_similarity (synset1_id synset2_id : str) : Run Q := λ L,
  if decide (synset1_id = synset2_id) then
    let '(s, L) := get_synset synset1_id L in
    let max_depth := get_max_depth L (pos_or_noun s) in
    ((- ln (1 / inject_Z (2 * max_depth + 1)))%Q, L)
  else
    let path_length :=
      find_shortest_path_length (rwn L) synset1_id synset2_id in
    if (path_length <? 0)%Z then (0%Q, L)
    else
      let '(s, L) := get_synset synset1_id L in
      let max_depth := get_max_depth L (pos_or_noun s) in
      let numerator := (path_length + 1)%Z in
      let denominator := (2 * max_depth + 1)%Z in
      if (denominator <=? numerator)%Z then (0%Q, L)
      else ((- ln (inject_Z numerator / inject_Z denominator))%Q, L).

(** *** RES *)

Definition res_similarity (synset1_id synset2_id : str) : Run Q :=
  if decide (synset1_id = synset2_id) then
    get_information_content ln synset1_id
  else
    lcs_id ← find_lcs synset1_id synset2_id;
    match lcs_id with
    | None => mret 0%Q
    | Some lcs_id => get_information_content ln lcs_id
    end.

(** *** JCN *)

Definition MAX_SIMILARITY : Q := 10000000000%Q.

Definition jcn_similarity (synset1_id synset2_id : str) : Run Q :=
  if decide (synset1_id = synset2_id) then mret MAX_SIMILARITY
  else
    lcs_id ← find_lcs synset1_id synset2_id;
    match lcs_id with
    | None => mret 0%Q
    | Some lcs_id =>
        ic_s1 ← get_information_content ln synset1_id;
        ic_s2 ← get_information_content ln synset2_id;
        ic_lcs ← get_information_content ln lcs_id;
        let distance := (ic_s1 + ic_s2 - 2 * ic_lcs)%Q in
        if Qle_bool distance 0 then mret MAX_SIMILARITY
        else mret (1 / distance)%Q
    end.

(** *** LIN *)

Definition lin_similarity (synset1_id synset2_id : str) : Run Q :=
  if decide (synset1_id = synset2_id) then mret 1%Q
  else
    lcs_id ← find_lcs synset1_id synset2_id;
    match lcs_id with
    | None => mret 0%Q
    | Some lcs_id =>
        ic_s1 ← get_information_content ln synset1_id;
        ic_s2 ← get_information_content ln synset2_id;
        ic_lcs ← get_information_content ln lcs_id;
        let denominator := (ic_s1 + ic_s2)%Q in
        if Qeq_bool denominator 0 then mret 0%Q
        else mret ((2 * ic_lcs) / denominator)%Q
    end.

Definition LchSimilarity : BaseSimilarity :=
  {| calculate_synset_similarity := lch_similarity |}.
Definition ResSimilarity : BaseSimilarity :=
  {| calculate_synset_similarity := res_similarity |}.
Definition JcnSimilarity : BaseSimilarity :=
  {| calculate_synset_similarity := jcn_similarity |}.
Definition LinSimilarity : BaseSimilarity :=
  {| calculate_synset_similarity := lin_similarity |}.
End ic_measures.

(** *** LESK *)

Definition STOP_WORDS : gset str :=
  list_to_set (U <$> [
    "a"; "an"; "the"; "is"; "are"; "was"; "were"; "be"; "been"; "being";
    "have"; "has"; "had"; "do"; "does"; "did"; "will"; "would"; "could";
    "should"; "may"; "might"; "must"; "shall"; "can"; "of"; "in"; "to";
    "for"; "with"; "on"; "at"; "by"; "from"; "as"; "into"; "through";
    "during"; "before"; "after"; "above"; "below"; "between"; "under";
    "again"; "further"; "then"; "once"; "here"; "there"; "when"; "where";
    "why"; "how"; "all"; "each"; "few"; "more"; "most"; "other"; "some";
    "such"; "no"; "nor"; "not"; "only"; "own"; "same"; "so"; "than"; "too";
    "very"; "just"; "and"; "but"; "if"; "or"; "because"; "while";
    "although"; "this"; "that"; "these"; "those"; "it"; "its"; "i"; "you";
    "he"; "she"; "we"; "they"; "what"; "which"; "who"; "whom"; "whose";
    "un"; "o"; "una"; "este"; "sunt"; "era"; "fost"; "fi"; "fiind"; "avea";
    "are"; "au"; "de"; "la"; "cu"; "pe"; "in"; "pentru"; "din"; "ca";
    "prin"; "despre"; "spre"; "intre"; "sub"; "peste"; "dupa"; "inainte";
    "aici"; "acolo"; "cand"; "unde"; "cum"; "toti"; "toate"; "fiecare";
    "mai"; "cel"; "cea"; "cei"; "cele"; "alt"; "alta"; "alti"; "alte";
    "nici"; "numai"; "doar"; "si"; "dar"; "daca"; "sau"; "pentru"; "ca";
    "aceasta"; "acest"; "aceste"; "acestea"; "el"; "ea"; "ei"; "ele";
    "noi"; "voi"; "ce"; "care"; "cine"; "cui"
  ]).

(** The character class [[a-zA-ZĀ-ſ]] of the tokenizer. *)
Definition regex_class (c : N) : bool :=
  in_range 97 122 c || in_range 65 90 c || in_range 256 383 c.

(** [\w] on code points up to U+024F (letters, digits and other numeric
    characters, underscore); anything above is taken as a non-word
    character. *)
Definition is_word_cp (c : N) : bool :=
  in_range 48 57 c || in_range 65 90 c || (c =? 95)%N || in_range 97 122 c
  || (c =? 170)%N || (c =? 178)%N || (c =? 179)%N || (c =? 181)%N
  || (c =? 185)%N || (c =? 186)%N || in_range 188 190 c
  || in_range 192 214 c || in_range 216 246 c || in_range 248 591 c.

Definition is_word (c : option N) : bool := from_option is_word_cp false c.

(** [\b] between two neighbouring positions ([None] is an end of the
    string). *)
Definition word_boundary (before after : option N) : bool :=
  xorb (is_word before) (is_word after).

Fixpoint class_run (text : str) : nat :=
  match text with
  | c :: rest => if regex_class c then S (class_run rest) else O
  | [] => O
  end.

(** The greedy [+] followed by [\b]: the longest run first, then shorter
    ones down to one character. *)
Fixpoint match_end (n : nat) (text : str) : option str :=
  match n with
  | O => None
  | S n' =>
      if word_boundary (text !! n') (text !! n) then Some (take n text)
      else match_end n' text
  end.

Definition match_at (before : option N) (text : str) : option str :=
  if word_boundary before (head text) then match_end (class_run text) text
  else None.

(** [re.findall]: leftmost matches, scanning on after each one; [inside]
    counts the characters of the last match still to be skipped. *)
Fixpoint findall_from (before : option N) (inside : nat) (text : str)
  : list str :=
  match text with
  | [] => []
  | c :: rest =>
      match inside with
      | S k => findall_from (Some c) k rest
      | O =>
          match match_at before text with
          | Some w => w :: findall_from (Some c) (length w - 1) rest
          | None => findall_from (Some c) 0 rest
          end
      end
  end.

Definition findall_words (text : str) : list str := findall_from None 0 text.

Definition _tokenize (text : str) : gset str :=
  match text with
  | [] => ∅
  | _ =>
      let text := lower text in
      let words := findall_words text in
      list_to_set (filter (λ w, (w ∉ STOP_WORDS) ∧ (2 < length w)) words)
  end.

Definition the_rwn : Run RoWordNet := λ L, (rwn L, L).

Fixpoint add_related_definitions (related : list str) (tokens : gset str)
  : Run (gset str) :=
  match related with
  | [] => mret tokens
  | rel_id :: rest =>
      rel_def ← get_definition rel_id;
      add_related_definitions rest (tokens ∪ _tokenize rel_def)
  end.

Definition _get_extended_gloss (synset_id : str) : Run (gset str) :=
  definition ← get_definition synset_id;
  let tokens := _tokenize definition in
  s ← get_synset synset_id;
  let tokens :=
    match s with
    | Some s =>
        foldl (λ tokens literal, tokens ∪ _tokenize literal) tokens
          (get_synset_literals s)
    | None => tokens
    end in
  g ← the_rwn;
  add_related_definitions (take 5 (get_related_synsets g synset_id)) tokens.

Definition float_of_len (tokens : gset str) : Q :=
  inject_Z (Z.of_nat (size tokens)).

Definition lesk_similarity (synset1_id synset2_id : str) : Run Q :=
  if decide (synset1_id = synset2_id) then
    gloss_tokens ← _get_extended_gloss synset1_id;
    mret (float_of_len gloss_tokens)
  else
    tokens1 ← _get_extended_gloss synset1_id;
    tokens2 ← _get_extended_gloss synset2_id;
    if decide (tokens1 = ∅ ∨ tokens2 = ∅) then mret 0%Q
    else mret (float_of_len (tokens1 ∩ tokens2)).

Definition LeskSimilarity : BaseSimilarity :=
  {| calculate_synset_similarity := lesk_similarity |}.

(** *** HSO *)

Definition CONST_C : Z := 16.
Definition CONST_K : Z := 1.
Definition MAX_PATH_LENGTH : Z := 8.
Definition MAX_DIRECTION_CHANGES : Z := 5.

Inductive direction := up | down.

#[global] Instance direction_eq_dec : EqDecision direction.
Proof. solve_decision. Defined.

Definition opposite (d : direction) : direction :=
  match d with
  | up => down
  | down => up
  end.

(** A queued search state:
    [(synset_id, path_length, direction_changes, last_direction, visited)]. *)
Definition hso_state : Type := str * Z * Z * option direction * gset str.

Definition _score (result : Z * Z) : Z :=
  (CONST_C - result.1 - CONST_K * result.2)%Z.

Definition keep_best (result : Z * Z) (best_result : option (Z * Z))
  : option (Z * Z) :=
  match best_result with
  | None => Some result
  | Some best =>
      if (_score best <? _score result)%Z then Some result else Some best
  end.

(** One of the two [for] loops of an expansion, going [dir] from a state
    with the given length, changes, last direction and visited set. *)
Fixpoint try_neighbors (synset2_id : str) (dir : direction)
    (path_len dir_changes : Z) (last_dir : option direction)
    (visited : gset str) (neighbors : list str)
    (queue : list hso_state) (best_result : option (Z * Z))
  : list hso_state * option (Z * Z) :=
  match neighbors with
  | [] => (queue, best_result)
  | neighbor :: rest =>
      let new_changes :=
        (dir_changes +
         (if decide (last_dir = Some (opposite dir)) then 1 else 0))%Z in
      if decide (neighbor = synset2_id) then
        try_neighbors synset2_id dir path_len dir_changes last_dir visited
          rest queue (keep_best ((path_len + 1)%Z, new_changes) best_result)
      else if decide (neighbor ∈ visited) then
        try_neighbors synset2_id dir path_len dir_changes last_dir visited
          rest queue best_result
      else
        try_neighbors synset2_id dir path_len dir_changes last_dir visited
          rest
          (queue ++ [(neighbor, (path_len + 1)%Z, new_changes, Some dir,
                      visited ∪ {[neighbor]})])
          best_result
  end.

Definition hso_step (g : RoWordNet) (synset2_id : str)
    (st : list hso_state * option (Z * Z))
  : (list hso_state * option (Z * Z)) + option (Z * Z) :=
  let '(queue, best_result) := st in
  match queue with
  | [] => inr best_result
  | (current_id, path_len, dir_changes, last_dir, visited) :: queue =>
      if (MAX_PATH_LENGTH <? path_len)%Z then inl (queue, best_result)
      else if (MAX_DIRECTION_CHANGES <? dir_changes)%Z then
        inl (queue, best_result)
      else
        let hypernyms := get_hypernyms g current_id in
        let hyponyms := get_hyponyms g current_id in
        let '(queue, best_result) :=
          try_neighbors synset2_id up path_len dir_changes last_dir visited
            hypernyms queue best_result in
        inl (try_neighbors synset2_id down path_len dir_changes last_dir
               visited hyponyms queue best_result)
  end.

(** The number of iterations a state of remaining length [k] can cause when
    every expansion queues at most [branching] states. *)
Fixpoint hso_weight (branching k : nat) : nat :=
  match k with
  | O => 1
  | S k' => 1 + branching * hso_weight branching k'
  end.

Definition hso_remaining (path_len : Z) : nat :=
  Z.to_nat (MAX_PATH_LENGTH + 1 - path_len).

Definition hso_fuel (g : RoWordNet) : nat :=
  hso_weight (2 * max_degree g) (hso_remaining 0) + 1.

Definition hso_bfs (g : RoWordNet) (synset1_id synset2_id : str)
  : option (option (Z * Z)) :=
  while_loop (hso_step g synset2_id) (hso_fuel g)
    ([(synset1_id, 0%Z, 0%Z, None, {[synset1_id]})], None).

Definition _find_path_with_directions (g : RoWordNet)
    (synset1_id synset2_id : str) : option (Z * Z) :=
  if decide (synset1_id = synset2_id) then Some (0%Z, 0%Z)
  else default None (hso_bfs g synset1_id synset2_id).

Definition hso_similarity (synset1_id synset2_id : str) : Run Q := λ L,
  if decide (synset1_id = synset2_id) then (inject_Z CONST_C, L)
  else
    match _find_path_with_directions (rwn L) synset1_id synset2_id with
    | None => (0%Q, L)
    | Some result =>
        let score := _score result in
        ((if (0 <? score)%Z then inject_Z score else 0)%Q, L)
    end.

Definition HsoSimilarity : BaseSimilarity :=
  {| calculate_synset_similarity := hso_similarity |}.

(** ** The [/similarity] endpoint: one result per measure *)

Record AlgorithmResult := {
  algorithm : str;
  similarity : Q;
  synset1 : option str;
  synset2 : option str
}.

(** [str.upper()] on the measure names, which are ASCII. *)
Definition upper (s : str) : str :=
  (λ c, if in_range 97 122 c then (c - 32)%N else c) <$> s.

(** Truth value of an optional sense number ([None] and [0] are false). *)
Definition truthy (sense : option Z) : bool :=
  match sense with
  | Some z => negb (z =? 0)%Z
  | None => false
  end.

Section service.
Variable ln : Q → Q.
(** [round(x, 6)]. *)
Variable round6 : Q → Q.

Definition get_algorithms : list (str * BaseSimilarity) :=
  [ (U "path", PathSimilarity); (U "wup", WupSimilarity);
    (U "lch", LchSimilarity ln); (U "res", ResSimilarity ln);
    (U "jcn", JcnSimilarity ln); (U "lin", LinSimilarity ln);
    (U "lesk", LeskSimilarity); (U "hso", HsoSimilarity) ].

(** The "best pair across all synsets" branch. *)
Definition best_pair_result (name : str) (alg : BaseSimilarity)
    (word1 word2 : str) : Run AlgorithmResult :=
  best_pair ← get_best_pair alg word1 word2;
  mret (match best_pair with
        | Some (synset1_id, synset2_id, sim) =>
            {| algorithm := upper name; similarity := round6 sim;
               synset1 := Some synset1_id; synset2 := Some synset2_id |}
        | None =>
            {| algorithm := upper name; similarity := 0%Q;
               synset1 := None; synset2 := None |}
        end).

(** The "specific synsets selected" branch. *)
Definition selected_pair_result (name : str) (alg : BaseSimilarity)
    (s1 s2 : Synset) : Run AlgorithmResult :=
  let s1_id := get_synset_id s1 in
  let s2_id := get_synset_id s2 in
  let s1_pos := get_synset_pos s1 in
  let s2_pos := get_synset_pos s2 in
  if decide (s1_pos = s2_pos ∨ name ∈ [U "lesk"; U "hso"]) then
    sim ← @calculate_synset_similarity alg s1_id s2_id;
    mret {| algorithm := upper name; similarity := round6 sim;
            synset1 := Some s1_id; synset2 := Some s2_id |}
  else
    mret {| algorithm := upper name; similarity := 0%Q;
            synset1 := None; synset2 := None |}.

(** The body of [for name, algorithm in algorithms.items()]. *)
Definition similarity_result (synsets1 synsets2 : list Synset)
    (sense1 sense2 : option Z) (word1 word2 : str)
    (entry : str * BaseSimilarity) : Run AlgorithmResult :=
  let '(name, alg) := entry in
  match synsets1, synsets2 with
  | [s1], [s2] =>
      if truthy sense1 || truthy sense2 then selected_pair_result name alg s1 s2
      else best_pair_result name alg word1 word2
  | _, _ => best_pair_result name alg word1 word2
  end.

Fixpoint similarity_results (synsets1 synsets2 : list Synset)
    (sense1 sense2 : option Z) (word1 word2 : str)
    (entries : list (str * BaseSimilarity))
  : Run (list AlgorithmResult) :=
  match entries with
  | [] => mret []
  | entry :: rest =>
      r ← similarity_result synsets1 synsets2 sense1 sense2 word1 word2 entry;
      rs ← similarity_results synsets1 synsets2 sense1 sense2 word1 word2 rest;
      mret (r :: rs)
  end.
End service.

(** ** Specification vocabulary *)

(** [hops g n x y]: [y] is reached from [x] by [n] hypernym edges. *)
Inductive hops (g : RoWordNet) : nat → str → str → Prop :=
  | hops_O x : hops g 0 x x
  | hops_S n x y z :
      y ∈ get_hypernyms g x → hops g n y z → hops g (S n) x z.

(** A root has no upward neighbour. *)
Definition is_root (g : RoWordNet) (r : str) : Prop := get_hypernyms g r = [].

(** [n] is the least number of hypernym hops from [s] to a root. *)
Definition root_distance (g : RoWordNet) (s : str) (n : nat) : Prop :=
  (∃ r, is_root g r ∧ hops g n s r) ∧
  ∀ m r, is_root g r → hops g m s r → n ≤ m.

(** The depth cache holds nothing but values that [get_depth] computes. *)
Definition depth_cache_ok (L : RoWordNetLoader) : Prop :=
  ∀ k d, _depth_cache L !! k = Some d → get_depth_bfs (rwn L) k = Some d.

(** The descendant-count and information-content caches hold nothing but
    values that the uncached computation yields. *)
Definition descendant_counts_ok (L : RoWordNetLoader) : Prop :=
  ∀ k c, _descendant_counts L !! k = Some c →
         count_descendants_bfs (rwn L) k = Some c.

Definition descendant_count (g : RoWordNet) (synset_id : str) : Z :=
  default 0%Z (count_descendants_bfs g synset_id).

Definition information_content (ln : Q → Q) (L : RoWordNetLoader)
    (synset_id : str) : Q :=
  ic_of_count ln L (descendant_count (rwn L) synset_id).

Definition ic_cache_ok (ln : Q → Q) (L : RoWordNetLoader) : Prop :=
  ∀ k ic, _ic_cache L !! k = Some ic → ic = information_content ln L k.

Definition caches_ok (ln : Q → Q) (L : RoWordNetLoader) : Prop :=
  depth_cache_ok L ∧ descendant_counts_ok L ∧ ic_cache_ok ln L.


(** What the cache-writing methods leave alone. *)
Definition frame (L L' : RoWordNetLoader) : Prop :=
  rwn L' = rwn L ∧ synset_cache L' = synset_cache L ∧
  _max_depth L' = _max_depth L ∧ word_to_synsets L' = word_to_synsets L.

(** ** Invariants and variants of the loops *)

Section get_depth_invariant.
Variable g : RoWordNet.
Variable s : str.

(** The entry [(x, k)] of the queue records a walk of [k - 1] hops. *)
Definition at_level (item : str * Z) : Prop :=
  ∃ j : nat, item.2 = (Z.of_nat j + 1)%Z ∧ hops g j s item.1.

Definition depth_le (a b : str * Z) : Prop := (a.2 ≤ b.2)%Z.

(** The queue is sorted by depth and spans at most two levels; every
    visited node has a walk no longer than the entries still queued; and
    some queued, unvisited node lies on a shortest walk to a root. *)
Definition depth_inv (st : gset str * list (str * Z)) : Prop :=
  let '(visited, queue) := st in
  Forall at_level queue ∧
  StronglySorted depth_le queue ∧
  (∀ a b, a ∈ queue → b ∈ queue → (b.2 ≤ a.2 + 1)%Z) ∧
  (∀ v, v ∈ visited →
     ∃ j : nat, hops g j s v ∧
       ∀ item, item ∈ queue → (Z.of_nat j + 1 ≤ item.2)%Z) ∧
  (∀ n, root_distance g s n →
     ∃ x k (j m : nat) r,
       (x, k) ∈ queue ∧ (x ∉ visited) ∧ k = (Z.of_nat j + 1)%Z ∧
       is_root g r ∧ hops g m x r ∧ j + m ≤ n).

Definition depth_post (d : Z) : Prop :=
  (1 ≤ d)%Z ∧
  (∀ n, root_distance g s n → d = (Z.of_nat n + 1)%Z) ∧
  ((∀ n r, hops g n s r → ¬ is_root g r) → d = 1%Z).

Definition depth_variant (st : gset str * list (str * Z)) : nat :=
  length st.2 + (max_degree g + 1) * size (dom (rwn_relations g) ∖ st.1).
End get_depth_invariant.

Definition side_variant (nodes : gset str) (mine : gmap str Z)
    (queue : list (str * Z)) : nat :=
  length queue + 2 * size (nodes ∖ dom mine).

Definition hso_queue_weight (branching : nat) (queue : list hso_state) : nat :=
  sum_list_with
    (λ st : hso_state, hso_weight branching (hso_remaining st.1.1.1.2)) queue.

(** ** Sample taxonomies *)

Definition hypernym_of (target : string) : str * str := (U target, U "hypernym").
Definition hyponym_of (target : string) : str * str := (U target, U "hyponym").

Definition noun (name : string) : Synset :=
  {| syn_id := U name; syn_pos := PosStr (U "n");
     syn_literals := [U name]; syn_definition := None |}.

Definition taxonomy (names : list string)
    (relations : list (string * list (str * str))) : RoWordNet :=
  {| rwn_synsets := noun <$> names;
     rwn_relations := list_to_map (prod_map U id <$> relations) |}.

(** The four-node tree of the design notes: root [R], its children [A] and
    [B], and [A1] below [A]. *)
Definition tree_graph : RoWordNet :=
  taxonomy ["R"; "A"; "B"; "A1"]
    [ ("R", [hyponym_of "A"; hyponym_of "B"]);
      ("A", [hypernym_of "R"; hyponym_of "A1"]);
      ("B", [hypernym_of "R"]);
      ("A1", [hypernym_of "A"]) ].

(** A taxonomy in which [v] has the two hypernyms [w] and [q]:
    [a] is above [p] and [q], [p] above [w], and [b] below [v].  Every
    hypernym edge has its inverse hyponym edge. *)
Definition diamond_graph : RoWordNet :=
  taxonomy ["a"; "p"; "q"; "w"; "v"; "b"]
    [ ("a", [hyponym_of "p"; hyponym_of "q"]);
      ("p", [hypernym_of "a"; hyponym_of "w"]);
      ("q", [hypernym_of "a"; hyponym_of "v"]);
      ("w", [hypernym_of "p"; hyponym_of "v"]);
      ("v", [hypernym_of "w"; hypernym_of "q"; hyponym_of "b"]);
      ("b", [hypernym_of "v"]) ].

(** A taxonomy in which [s1] and [s2] each have the hypernyms [P] and [R],
    where [P] lies two levels below the root [R]. *)
Definition shortcut_graph : RoWordNet :=
  taxonomy ["R"; "Q"; "P"; "s1"; "s2"]
    [ ("R", [hyponym_of "Q"; hyponym_of "s1"; hyponym_of "s2"]);
      ("Q", [hypernym_of "R"; hyponym_of "P"]);
      ("P", [hypernym_of "Q"; hyponym_of "s1"; hyponym_of "s2"]);
      ("s1", [hypernym_of "P"; hypernym_of "R"]);
      ("s2", [hypernym_of "P"; hypernym_of "R"]) ].

(** A chain [c0 < c1 < ... < cn] of [n] hypernym edges, with the inverse
    hyponym edges; every synset is an adjective. *)
Definition chain_name (i : nat) : str := U ("c" +:+ pretty i).

Definition chain_synset (i : nat) : Synset :=
  {| syn_id := chain_name i; syn_pos := PosStr (U "a");
     syn_literals := [chain_name i]; syn_definition := None |}.

Definition chain_relations (n i : nat) : list (str * str) :=
  (if decide (i < n) then [(chain_name (S i), U "hypernym")] else []) ++
  (match i with
   | O => []
   | S i' => [(chain_name i', U "hyponym")]
   end).

Definition chain_graph (n : nat) : RoWordNet :=
  {| rwn_synsets := chain_synset <$> seq 0 (S n);
     rwn_relations :=
       list_to_map ((λ i, (chain_name i, chain_relations n i)) <$> seq 0 (S n)) |}.

(** Two synsets that are each other's hyponym and share a target that is
    not a synset: each reaches three identifiers downwards, one more than
    the number of synsets. *)
Definition loop_graph : RoWordNet :=
  taxonomy ["A"; "B"]
    [ ("A", [hypernym_of "B"; hyponym_of "B"; hyponym_of "X"]);
      ("B", [hyponym_of "A"; hyponym_of "X"]) ].

(** Two words whose only senses differ in part of speech, with overlapping
    glosses and a direct hypernym edge between them. *)
Definition run_v : Synset :=
  {| syn_id := U "run-v"; syn_pos := PosStr (U "v");
     syn_literals := [U "alerga"];
     syn_definition := Some (U "move fast using legs") |}.

Definition race_n : Synset :=
  {| syn_id := U "race-n"; syn_pos := PosStr (U "n");
     syn_literals := [U "cursa"];
     syn_definition := Some (U "contest where runners move fast") |}.

Definition mixed_pos_graph : RoWordNet :=
  {| rwn_synsets := [run_v; race_n];
     rwn_relations :=
       {[ U "run-v" := [hypernym_of "race-n"];
          U "race-n" := [hyponym_of "run-v"] ]} |}.

(** The text "câine": c, â (U+00E2), i, n, e. *)
Definition caine : str := [99; 226; 105; 110; 101]%N.
(** The text "apă": a, p, ă (U+0103). *)
Definition apa : str := [97; 112; 259]%N.
(** The text "mașină": m, a, ș (U+0219), i, n, ă (U+0103). *)
Definition masina : str := [109; 97; 537; 105; 110; 259]%N.

(** * Further vocabulary: closures, routes and requests *)

(** ** Further specification vocabulary *)

(** [walk next n x y]: [y] is reached from [x] in [n] steps, each step going
    from a node to one of the nodes [next] lists for it. *)
Inductive walk (next : str → list str) : nat → str → str → Prop :=
  | walk_O x : walk next 0 x x
  | walk_S n x y z : y ∈ next x → walk next n y z → walk next (S n) x z.

(** [y] is [x] or lies below it along hyponym edges. *)
Definition descends (g : RoWordNet) (x y : str) : Prop :=
  ∃ n, walk (get_hyponyms g) n x y.

(** [y] is [x] or lies above it along hypernym edges. *)
Definition subsumes (g : RoWordNet) (y x : str) : Prop := ∃ n, hops g n x y.

(** [y] is reached from [x] along edges of either kind. *)
Definition connected (g : RoWordNet) (x y : str) : Prop :=
  ∃ n, walk (get_related_synsets g) n x y.

(** The uncached depth. *)
Definition depth (g : RoWordNet) (synset_id : str) : Z :=
  default 0%Z (get_depth_bfs g synset_id).

(** The state of one side of the bidirectional search: the start is
    recorded; a recorded distance is the length of a walk from the start;
    the queue holds recorded entries; and a recorded node that is neither
    queued nor being expanded ([expanding]) has all its neighbours
    recorded. *)
Definition side_inv (g : RoWordNet) (start : str) (mine : gmap str Z)
    (queue : list (str * Z)) (expanding : list str) : Prop :=
  is_Some (mine !! start) ∧
  (∀ x d, mine !! x = Some d →
     ∃ n : nat, d = Z.of_nat n ∧ walk (get_related_synsets g) n start x) ∧
  (∀ x d, (x, d) ∈ queue → mine !! x = Some d) ∧
  (∀ x, is_Some (mine !! x) → x ∉ queue.*1 → x ∉ expanding →
     ∀ h, h ∈ get_related_synsets g x → is_Some (mine !! h)).

(** No node is recorded by both sides. *)
Definition sides_apart (mine other : gmap str Z) : Prop :=
  ∀ x, is_Some (mine !! x) → other !! x = None.

(** The two starts are joined by a route of [r] edges through some node
    that both reach. *)
Definition meet_at (g : RoWordNet) (a b : str) (r : Z) : Prop :=
  (1 ≤ r)%Z ∧
  ∃ x (n m : nat),
    walk (get_related_synsets g) n a x ∧
    walk (get_related_synsets g) m b x ∧ r = Z.of_nat (n + m).

Definition fsp_post (g : RoWordNet) (a b : str) (r : Z) : Prop :=
  (r = (-1)%Z ∧ ¬ ∃ x, connected g a x ∧ connected g b x) ∨ meet_at g a b r.

(** [l] subsumes both synsets and no common subsumer is deeper. *)
Definition deepest_common_subsumer (g : RoWordNet) (a b l : str) : Prop :=
  subsumes g l a ∧ subsumes g l b ∧
  ∀ x, subsumes g x a → subsumes g x b → (depth g x ≤ depth g l)%Z.

(** A queued state of the HSO search: the recorded length is that of a walk
    from the start to the state's synset, and the recorded number of
    direction changes is smaller than the length (none before the first
    step). *)
Definition hso_state_ok (g : RoWordNet) (a : str) (st : hso_state) : Prop :=
  let '(current, path_len, dir_changes, last_dir, visited) := st in
  ∃ n : nat, path_len = Z.of_nat n ∧
    walk (get_related_synsets g) n a current ∧
    (0 ≤ dir_changes)%Z ∧
    match last_dir with
    | None => n = 0 ∧ dir_changes = 0%Z
    | Some _ => (dir_changes < path_len)%Z
    end.

(** A recorded result. *)
Definition hso_result_ok (g : RoWordNet) (a b : str) (result : Z * Z) : Prop :=
  ∃ n : nat, result.1 = Z.of_nat n ∧
    walk (get_related_synsets g) n a b ∧
    (1 ≤ result.1 ≤ MAX_PATH_LENGTH + 1)%Z ∧
    (0 ≤ result.2 ≤ MAX_DIRECTION_CHANGES + 1)%Z ∧
    (result.2 < result.1)%Z.

(** The index and the synset table are those that [__init__] built from
    the loader's resource. *)
Definition index_ok (L : RoWordNetLoader) : Prop :=
  word_to_synsets L = (_build_word_index (rwn L)).1 ∧
  synset_cache L = (_build_word_index (rwn L)).2.




(** A lowercase ASCII letter or a code point of Latin Extended-A. *)
Definition token_char (c : N) : bool :=
  in_range 97 122 c || in_range 256 383 c.

(** ** The service: choosing synsets from a request ([main.py]) *)

(** Truth value of an optional string ([None] and the empty string are
    false). *)
Definition str_truthy (s : option str) : bool :=
  match s with
  | Some (_ :: _) => true
  | _ => false
  end.

(** [[s for s in synsets if loader.get_synset_pos(s) == pos]]. *)
Definition with_pos (pos : option str) (synsets : list Synset) : list Synset :=
  filter (λ s, Some (get_synset_pos s) = pos) synsets.

(** [sense and sense >= 1 and sense <= len(synsets)]. *)
Definition sense_in_range (sense : option Z) (synsets : list Synset) : bool :=
  truthy sense &&
  match sense with
  | Some k => (1 <=? k)%Z && (k <=? Z.of_nat (length synsets))%Z
  | None => false
  end.

(** [synsets[sense - 1]]. *)
Definition nth_sense (sense : option Z) (synsets : list Synset)
  : option Synset :=
  synsets !! Z.to_nat (default 0%Z sense - 1).

Definition get_synset_by_spec (L : RoWordNetLoader) (word : str)
    (pos : option str) (sense : option Z) : option Synset * option str :=
  let synsets := get_synsets_for_word L word in
  match synsets with
  | [] => (None, None)
  | _ =>
      let synsets := if str_truthy pos then with_pos pos synsets else synsets in
      match synsets with
      | [] => (None, None)
      | first :: _ =>
          let synset :=
            if sense_in_range sense synsets
            then default first (nth_sense sense synsets)
            else first in
          (Some synset, Some (get_synset_id synset))
      end
  end.

(** The two 404 answers of the similarity endpoint. *)
Inductive HTTPException :=
  | word_not_found (word : str)
  | no_synsets_with_pos (pos : option str) (word : str).

Definition select_sense (sense : option Z) (synsets : list Synset)
  : list Synset :=
  if sense_in_range sense synsets
  then match nth_sense sense synsets with
       | Some s => [s]
       | None => synsets
       end
  else synsets.

Section similarity_endpoint.
Variable ln : Q → Q.
Variable round6 : Q → Q.

(** [calculate_similarity] from the parsed request on: the candidates of
    both words, the part-of-speech filters, the sense selection and the
    loop over the measures.  The answer holds the results and the two
    candidate lists that the response describes. *)
Definition calculate_similarity
    (word1 : str) (pos1 : option str) (sense1 : option Z)
    (word2 : str) (pos2 : option str) (sense2 : option Z)
  : Run (HTTPException + list AlgorithmResult * list Synset * list Synset) :=
  λ L,
  let synsets1 := get_synsets_for_word L word1 in
  let synsets2 := get_synsets_for_word L word2 in
  match synsets1, synsets2 with
  | [], _ => (inl (word_not_found word1), L)
  | _, [] => (inl (word_not_found word2), L)
  | _, _ =>
      let synsets1 :=
        if str_truthy pos1 then with_pos pos1 synsets1 else synsets1 in
      match synsets1 with
      | [] => (inl (no_synsets_with_pos pos1 word1), L)
      | _ =>
          let synsets2 :=
            if str_truthy pos2 then with_pos pos2 synsets2 else synsets2 in
          match synsets2 with
          | [] => (inl (no_synsets_with_pos pos2 word2), L)
          | _ =>
              let synsets1 := select_sense sense1 synsets1 in
              let synsets2 := select_sense sense2 synsets2 in
              let '(results, L') :=
                similarity_results round6 synsets1 synsets2 sense1 sense2
                  word1 word2 (get_algorithms ln) L in
              (inr (results, synsets1, synsets2), L')
          end
      end
  end.
End similarity_endpoint.

(** A word with a noun sense and an adjective sense, next to two more
    adjectives. *)
Definition sea_n : Synset :=
  {| syn_id := U "sea-n"; syn_pos := PosStr (U "n");
     syn_literals := [U "mare"];
     syn_definition := Some (U "large body of salt water") |}.

Definition big_a : Synset :=
  {| syn_id := U "big-a"; syn_pos := PosStr (U "a");
     syn_literals := [U "mare"];
     syn_definition := Some (U "above average in size") |}.

Definition small_a : Synset :=
  {| syn_id := U "small-a"; syn_pos := PosStr (U "a");
     syn_literals := [U "mic"];
     syn_definition := Some (U "below average in size") |}.

Definition sized_a : Synset :=
  {| syn_id := U "sized-a"; syn_pos := PosStr (U "a");
     syn_literals := [U "dimensionat"];
     syn_definition := Some (U "having a size") |}.

Definition homonym_graph : RoWordNet :=
  {| rwn_synsets := [sea_n; big_a; small_a; sized_a];
     rwn_relations :=
       {[ U "big-a" := [hypernym_of "sized-a"];
          U "small-a" := [hypernym_of "sized-a"];
          U "sized-a" := [hyponym_of "big-a"; hyponym_of "small-a"] ]} |}.

(** ** Vocabulary for the request path, the glosses and the depth table *)



(** Modelled from the spec: maxDepth(pos), the "constant lookup table per
    part-of-speech category — {noun: 20, verb: 15, adjective: 10,
    adverb: 10}", on the letters n, v, a, r that stand for the four
    categories. *)
Definition spec_max_depth (pos : str) : option Z :=
  ({[ U "n" := 20%Z; U "v" := 15%Z; U "a" := 10%Z; U "r" := 10%Z ]}
     : gmap str Z) !! pos.




(** A chain like [chain_graph] whose synsets carry their part of speech as
    the number 2, which the loader's own table reads as adjective. *)
Definition coded_chain_synset (i : nat) : Synset :=
  {| syn_id := chain_name i; syn_pos := PosInt 2;
     syn_literals := [chain_name i]; syn_definition := None |}.

Definition coded_chain_graph (n : nat) : RoWordNet :=
  {| rwn_synsets := coded_chain_synset <$> seq 0 (S n);
     rwn_relations :=
       list_to_map ((λ i, (chain_name i, chain_relations n i)) <$> seq 0 (S n)) |}.

(** * Properties *)

(** ** Loops: total correctness from an invariant and a variant *)

Lemma while_loop_total {S R : Type} (step : S → S + R)
    (Inv : S → Prop) (μ : S → nat) (Post : R → Prop) :
  (∀ s, Inv s →
     match step s with
     | inl s' => Inv s' ∧ μ s' < μ s
     | inr r => Post r
     end) →
  ∀ fuel s, Inv s → μ s < fuel →
    ∃ r, while_loop step fuel s = Some r ∧ Post r.
Proof.
  intros Hstep fuel. induction fuel as [|fuel IH]; intros s Hinv Hlt; [lia|].
  simpl. specialize (Hstep s Hinv). destruct (step s) as [s'|r].
  - destruct Hstep as [Hinv' Hdec]. apply IH; [done | lia].
  - eauto.
Qed.

Lemma while_loop_terminates {S R : Type} (step : S → S + R) (μ : S → nat) :
  (∀ s, match step s with
        | inl s' => μ s' < μ s
        | inr _ => True
        end) →
  ∀ fuel s, μ s < fuel → is_Some (while_loop (R:=R) step fuel s).
Proof.
  intros Hstep fuel s Hlt.
  destruct (while_loop_total step (λ _, True) μ (λ _, True)) with fuel s
    as (r & -> & _); [| done | done | done].
  intros s' _. specialize (Hstep s'). by destruct (step s').
Qed.

(** ** The graph queries *)

Lemma max_degree_lookup g k rels :
  rwn_relations g !! k = Some rels → length rels ≤ max_degree g.
Proof.
  intros Hk. unfold max_degree. apply max_list_elem_of_le.
  apply list_elem_of_fmap. exists rels. split; [done|].
  apply list_elem_of_fmap. exists (k, rels). split; [done|].
  by apply elem_of_map_to_list.
Qed.

Lemma relation_targets_length label rels :
  length (relation_targets label rels) ≤ length rels.
Proof.
  unfold relation_targets. rewrite length_fmap. apply length_filter.
Qed.

Lemma get_hypernyms_length g k : length (get_hypernyms g k) ≤ max_degree g.
Proof.
  unfold get_hypernyms, outbound_relations.
  destruct (rwn_relations g !! k) as [rels|] eqn:Hk; simpl; [|lia].
  etrans; [apply relation_targets_length | by eapply max_degree_lookup].
Qed.

Lemma get_hyponyms_length g k : length (get_hyponyms g k) ≤ max_degree g.
Proof.
  unfold get_hyponyms, outbound_relations.
  destruct (rwn_relations g !! k) as [rels|] eqn:Hk; simpl; [|lia].
  etrans; [apply relation_targets_length | by eapply max_degree_lookup].
Qed.

Lemma get_hypernyms_dom g k h :
  h ∈ get_hypernyms g k → k ∈ dom (rwn_relations g).
Proof.
  unfold get_hypernyms, outbound_relations. intros Hh.
  apply elem_of_dom. destruct (rwn_relations g !! k); [done|].
  by apply elem_of_nil in Hh.
Qed.

Lemma get_hyponyms_dom g k h :
  h ∈ get_hyponyms g k → k ∈ dom (rwn_relations g).
Proof.
  unfold get_hyponyms, outbound_relations. intros Hh.
  apply elem_of_dom. destruct (rwn_relations g !! k); [done|].
  by apply elem_of_nil in Hh.
Qed.

(** Marking a node of the graph that was not yet visited uses up one unit
    of the variant shared by the visited-set traversals. *)
Lemma unvisited_size_decreases (nodes visited : gset str) (k : str) :
  k ∈ nodes → k ∉ visited →
  size (nodes ∖ ({[k]} ∪ visited)) < size (nodes ∖ visited).
Proof.
  intros Hk Hv. apply subset_size.
  split; [set_solver|]. intros Hsub. specialize (Hsub k). set_solver.
Qed.

Lemma hops_snoc g n x y z :
  hops g n x y → z ∈ get_hypernyms g y → hops g (S n) x z.
Proof.
  induction 1 as [x|n x y' y Hxy Hh IH]; intros Hz.
  - eapply hops_S; [done | constructor].
  - eapply hops_S; [done | by apply IH].
Qed.

Lemma hops_app g n m x y z :
  hops g n x y → hops g m y z → hops g (n + m) x z.
Proof.
  induction 1 as [x|n x y' y Hxy Hh IH]; intros Hz; [done|].
  simpl. eapply hops_S; [done | by apply IH].
Qed.

Lemma hops_O_inv g x y : hops g 0 x y → x = y.
Proof. by inversion 1. Qed.

Lemma hops_S_inv g n x z :
  hops g (S n) x z → ∃ y, y ∈ get_hypernyms g x ∧ hops g n y z.
Proof. inversion 1; eauto. Qed.

(** ** [get_depth] *)

Section get_depth_correct.
Variable g : RoWordNet.
Variable s : str.

Lemma depth_inv_init : depth_inv g s (∅, [(s, 1%Z)]).
Proof.
  split_and!.
  - constructor; [|constructor]. exists 0. split; [done | constructor].
  - repeat constructor.
  - intros a b ->%list_elem_of_singleton ->%list_elem_of_singleton. lia.
  - intros v Hv. set_solver.
  - intros n [(r & Hr & Hn) _].
    exists s, 1%Z, 0, n, r.
    split_and!; [by left | set_solver | done | done | done | lia].
Qed.

Lemma depth_step_ok st :
  depth_inv g s st →
  match get_depth_step g st with
  | inl st' => depth_inv g s st' ∧ depth_variant g st' < depth_variant g st
  | inr d => depth_post g s d
  end.
Proof.
  destruct st as [visited queue].
  intros (Hlev & Hsort & Hwin & Hvis & Hopt).
  destruct queue as [|[x k] rest]; simpl.
  { (* the queue ran empty *)
    split_and!; [lia | | done].
    intros n Hn. destruct (Hopt n Hn) as (? & ? & ? & ? & ? & Hin & _).
    by apply elem_of_nil in Hin. }
  apply Forall_cons in Hlev as [(j & Hk & Hj) Hlev]. simpl in Hk, Hj.
  apply StronglySorted_inv in Hsort as [Hsort Hhead].
  rewrite Forall_forall in Hhead.
  assert (Hrest : ∀ item, item ∈ rest → (k ≤ item.2 ≤ k + 1)%Z).
  { intros item Hitem. split.
    - apply Hhead in Hitem. exact Hitem.
    - apply (Hwin (x, k) item); [left | by right]. }
  destruct (decide (x ∈ visited)) as [Hx|Hx].
  { (* already expanded: the entry is dropped *)
    split; [|unfold depth_variant; simpl; lia].
    split_and!; [done | done | | |].
    - intros a b Ha Hb. apply Hwin; by right.
    - intros v Hv. destruct (Hvis v Hv) as (jv & Hjv & Hle).
      exists jv. split; [done|]. intros item Hitem. apply Hle. by right.
    - intros n Hn.
      destruct (Hopt n Hn) as (y & ky & jy & m & r & Hin & Hy & Hrest').
      exists y, ky, jy, m, r. split; [|done].
      apply elem_of_cons in Hin as [Heq|Hin]; [by simplify_eq | done]. }
  destruct (get_hypernyms g x) as [|h hs] eqn:Hhyp.
  { (* a root: its depth is returned *)
    split_and!; [lia | |].
    - intros n Hn.
      destruct (Hopt n Hn) as (y & ky & jy & m & r & Hin & Hy & Hky & _ & _ & Hle).
      destruct Hn as [_ Hmin]. specialize (Hmin j x Hhyp Hj).
      apply elem_of_cons in Hin as [Heq|Hin]; [simplify_eq; lia|].
      specialize (Hrest _ Hin). simpl in Hrest. lia.
    - intros Hnone. by destruct (Hnone j x Hj). }
  (* an inner node: its unvisited hypernyms are queued one level up *)
  rewrite <- Hhyp.
  set (visited' := {[x]} ∪ visited).
  set (new := (λ h, (h, (k + 1)%Z)) <$>
                filter (λ h, h ∉ visited') (get_hypernyms g x)).
  assert (Hnew : ∀ item, item ∈ new →
            item.2 = (k + 1)%Z ∧ item.1 ∈ get_hypernyms g x ∧ item.1 ∉ visited').
  { intros item (h' & -> & Hh')%list_elem_of_fmap.
    apply list_elem_of_filter in Hh' as [? ?]. done. }
  split.
  - split_and!.
    + apply Forall_app. split; [done|]. apply Forall_forall.
      intros item Hitem. destruct (Hnew _ Hitem) as (Hk' & Hin & _).
      exists (S j). split; [lia|]. by eapply hops_snoc.
    + apply StronglySorted_app_2; [| done |].
      * intros a b Ha Hb. destruct (Hnew _ Hb) as (Hk' & _).
        specialize (Hrest _ Ha). unfold depth_le. lia.
      * subst new. clear. induction (filter _ _) as [|a l IH]; simpl.
        { constructor. }
        constructor; [done|]. apply Forall_forall.
        intros b (h' & -> & _)%list_elem_of_fmap.
        unfold depth_le. simpl. lia.
    + intros a b Ha Hb.
      assert (Hb' : (k ≤ b.2 ≤ k + 1)%Z).
      { apply elem_of_app in Hb as [Hb|Hb]; [by apply Hrest|].
        destruct (Hnew _ Hb) as (-> & _). lia. }
      assert (Ha' : (k ≤ a.2 ≤ k + 1)%Z).
      { apply elem_of_app in Ha as [Ha|Ha]; [by apply Hrest|].
        destruct (Hnew _ Ha) as (-> & _). lia. }
      lia.
    + intros v Hv.
      assert (∃ jv : nat, hops g jv s v ∧ (Z.of_nat jv + 1 ≤ k)%Z)
        as (jv & Hjv & Hle).
      { apply elem_of_union in Hv as [->%elem_of_singleton|Hv].
        - exists j. split; [done | lia].
        - destruct (Hvis v Hv) as (jv & Hjv & Hle). exists jv.
          split; [done|]. apply (Hle (x, k)). left. }
      exists jv. split; [done|]. intros item Hitem.
      apply elem_of_app in Hitem as [Hitem|Hitem].
      * specialize (Hrest _ Hitem). lia.
      * destruct (Hnew _ Hitem) as (-> & _). lia.
    + intros n Hn.
      destruct (Hopt n Hn) as (y & ky & jy & m & r & Hin & Hy & Hky & Hr & Hm & Hle).
      destruct (decide (y = x)) as [->|Hne].
      * (* the witness is the expanded node: move it to a hypernym *)
        assert (j ≤ jy) as Hjjy.
        { apply elem_of_cons in Hin as [Heq|Hin]; [simplify_eq; lia|].
          specialize (Hrest _ Hin). simpl in Hrest. lia. }
        destruct m as [|m'].
        { apply hops_O_inv in Hm as <-. by rewrite Hr in Hhyp. }
        apply hops_S_inv in Hm as (h' & Hh' & Hm').
        assert (h' ∉ visited') as Hfresh.
        { intros Hv.
          assert (∃ jv : nat, hops g jv s h' ∧ jv ≤ j) as (jv & Hjv & Hlev').
          { apply elem_of_union in Hv as [->%elem_of_singleton|Hv].
            - by exists j.
            - destruct (Hvis _ Hv) as (jv & Hjv & Hle').
              exists jv. split; [done|].
              specialize (Hle' (x, k)). simpl in Hle'.
              assert ((x, k) ∈ (x, k) :: rest) as Hhd by left.
              specialize (Hle' Hhd). lia. }
          destruct Hn as [_ Hmin].
          specialize (Hmin (jv + m') r Hr (hops_app _ _ _ _ _ _ Hjv Hm')).
          lia. }
        exists h', (k + 1)%Z, (S j), m', r.
        split_and!; [| exact Hfresh | lia | done | done | lia].
        apply elem_of_app. right. unfold new.
        apply (list_elem_of_fmap_2 (λ h, (h, (k + 1)%Z))).
        by apply list_elem_of_filter.
      * exists y, ky, jy, m, r.
        split_and!; [| set_solver | done | done | done | lia].
        apply elem_of_cons in Hin as [Heq|Hin]; [by simplify_eq|].
        apply elem_of_app. by left.
  - (* the variant *)
    unfold depth_variant. simpl. rewrite length_app.
    assert (length new ≤ max_degree g) as Hlen.
    { subst new. rewrite length_fmap.
      etrans; [apply length_filter | apply get_hypernyms_length]. }
    assert (x ∈ dom (rwn_relations g)) as Hdom.
    { apply (get_hypernyms_dom g x h). rewrite Hhyp. left. }
    pose proof (unvisited_size_decreases _ _ _ Hdom Hx) as Hsz.
    fold visited' in Hsz. nia.
Qed.

Lemma get_depth_bfs_spec :
  ∃ d, get_depth_bfs g s = Some d ∧ depth_post g s d.
Proof.
  unfold get_depth_bfs.
  apply (while_loop_total _ (depth_inv g s) (depth_variant g)).
  - apply depth_step_ok.
  - apply depth_inv_init.
  - unfold depth_variant, get_depth_fuel. simpl.
    assert (size (dom (rwn_relations g) ∖ ∅) ≤ size (dom (rwn_relations g))).
    { apply subseteq_size. set_solver. }
    nia.
Qed.
End get_depth_correct.

(** ** The other traversals leave their loops *)

Lemma count_descendants_bfs_total g s :
  ∃ c, count_descendants_bfs g s = Some c ∧ (1 ≤ c)%Z.
Proof.
  unfold count_descendants_bfs.
  apply (while_loop_total _
    (λ st, (0 ≤ st.2)%Z ∧ (st.2 = 0%Z → st.1.1 = ∅ ∧ st.1.2 ≠ []))
    (λ st, length st.1.2 +
           (max_degree g + 1) * size (dom (rwn_relations g) ∖ st.1.1))).
  - intros [[visited queue] count] [Hpos Hzero]; simpl in *.
    destruct queue as [|current queue]; simpl.
    { destruct (decide (count = 0%Z)) as [->|]; [|lia].
      by destruct Hzero as [_ ?]. }
    destruct (decide (current ∈ visited)) as [Hv|Hv]; simpl.
    { split; [|lia]. split; [done|]. intros ->.
      destruct Hzero as [-> _]; [done|]. set_solver. }
    split; [split; [lia | intros; lia]|].
    rewrite length_app.
    pose proof (get_hyponyms_length g current) as Hdeg.
    pose proof (length_filter (λ h, h ∉ {[current]} ∪ visited)
                  (get_hyponyms g current)) as Hfil.
    destruct (get_hyponyms g current) as [|h hs] eqn:Hhyp; simpl in *.
    + assert (size (dom (rwn_relations g) ∖ ({[current]} ∪ visited))
              ≤ size (dom (rwn_relations g) ∖ visited)).
      { apply subseteq_size. set_solver. }
      nia.
    + assert (current ∈ dom (rwn_relations g)) as Hdom.
      { apply (get_hyponyms_dom g current h). rewrite Hhyp. left. }
      pose proof (unvisited_size_decreases _ _ _ Hdom Hv). nia.
  - simpl. split; [lia | done].
  - unfold get_depth_fuel. simpl.
    assert (size (dom (rwn_relations g) ∖ ∅) ≤ size (dom (rwn_relations g))).
    { apply subseteq_size. set_solver. }
    nia.
Qed.

Lemma relation_targets_all_targets g k rels label h :
  rwn_relations g !! k = Some rels →
  h ∈ relation_targets label rels → h ∈ all_targets g.
Proof.
  intros Hk Hh. unfold all_targets. apply elem_of_list_to_set.
  unfold relation_targets in Hh.
  apply list_elem_of_fmap in Hh as ([h' lbl] & -> & Hin).
  apply list_elem_of_filter in Hin as [_ Hin].
  apply list_elem_of_fmap. exists (h', lbl). split; [done|].
  apply list_elem_of_join. exists rels. split; [done|].
  apply list_elem_of_fmap. exists (k, rels). split; [done|].
  by apply elem_of_map_to_list.
Qed.

Lemma get_hypernyms_all_targets g k h :
  h ∈ get_hypernyms g k → h ∈ all_targets g.
Proof.
  unfold get_hypernyms, outbound_relations.
  destruct (rwn_relations g !! k) as [rels|] eqn:Hk.
  - by apply (relation_targets_all_targets g k rels).
  - by intros ?%elem_of_nil.
Qed.

Lemma get_hyponyms_all_targets g k h :
  h ∈ get_hyponyms g k → h ∈ all_targets g.
Proof.
  unfold get_hyponyms, outbound_relations.
  destruct (rwn_relations g !! k) as [rels|] eqn:Hk.
  - by apply (relation_targets_all_targets g k rels).
  - by intros ?%elem_of_nil.
Qed.

Lemma add_ancestors_variant (nodes : gset str) hypernyms ancestors queue :
  (∀ h, h ∈ hypernyms → h ∈ nodes) →
  let '(ancestors', queue') := add_ancestors hypernyms ancestors queue in
  length queue' + 2 * size (nodes ∖ ancestors')
  ≤ length queue + 2 * size (nodes ∖ ancestors).
Proof.
  revert ancestors queue.
  induction hypernyms as [|h hs IH]; intros ancestors queue Hsub; simpl; [lia|].
  assert (∀ h', h' ∈ hs → h' ∈ nodes) as Hsub' by (intros; apply Hsub; by right).
  destruct (decide (h ∈ ancestors)) as [Hh|Hh]; [by apply IH|].
  specialize (IH ({[h]} ∪ ancestors) (queue ++ [h]) Hsub').
  destruct (add_ancestors hs _ _) as [ancestors' queue'].
  rewrite length_app in IH. simpl in IH.
  assert (h ∈ nodes) as Hn by (apply Hsub; left).
  pose proof (unvisited_size_decreases _ _ _ Hn Hh). lia.
Qed.

Lemma ancestors_bfs_total g s : is_Some (ancestors_bfs g s).
Proof.
  unfold ancestors_bfs.
  apply (while_loop_terminates _
    (λ st, length st.2 + 2 * size (all_targets g ∖ st.1))).
  - intros [ancestors queue]. destruct queue as [|current queue]; simpl; [done|].
    pose proof (add_ancestors_variant (all_targets g)
      (get_hypernyms g current) ancestors queue
      (get_hypernyms_all_targets g current)) as Hvar.
    destruct (add_ancestors _ _ _) as [ancestors' queue']. simpl. lia.
  - unfold ancestors_fuel. simpl.
    assert (size (all_targets g ∖ ∅) ≤ size (all_targets g)).
    { apply subseteq_size. set_solver. }
    lia.
Qed.

Lemma expand_neighbors_variant (nodes : gset str) dist neighbors mine other queue :
  (∀ h, h ∈ neighbors → h ∈ nodes) →
  match expand_neighbors dist neighbors mine other queue with
  | inl (mine', queue') => side_variant nodes mine' queue' ≤ side_variant nodes mine queue
  | inr _ => True
  end.
Proof.
  revert mine queue.
  induction neighbors as [|h hs IH]; intros mine queue Hsub; simpl; [done|].
  assert (∀ h', h' ∈ hs → h' ∈ nodes) as Hsub' by (intros; apply Hsub; by right).
  destruct (mine !! h) as [d|] eqn:Hh; [by apply IH|].
  destruct (other !! h); [done|].
  specialize (IH (<[h := (dist + 1)%Z]> mine) (queue ++ [(h, (dist + 1)%Z)]) Hsub').
  destruct (expand_neighbors _ _ _ _ _) as [[mine' queue']|]; [|done].
  unfold side_variant in *. rewrite length_app, dom_insert_L in IH. simpl in IH.
  assert (h ∈ nodes) as Hn by (apply Hsub; left).
  assert (h ∉ dom mine) as Hd by (by apply not_elem_of_dom).
  pose proof (unvisited_size_decreases _ _ _ Hn Hd). lia.
Qed.

Lemma expand_side_variant g mine other queue :
  match expand_side g mine other queue with
  | inl (mine', queue') =>
      side_variant (all_targets g) mine' queue' ≤ side_variant (all_targets g) mine queue ∧
      (queue ≠ [] → side_variant (all_targets g) mine' queue'
                    < side_variant (all_targets g) mine queue)
  | inr _ => True
  end.
Proof.
  destruct queue as [|[current dist] queue]; simpl; [done|].
  destruct (other !! current); [done|].
  pose proof (expand_neighbors_variant (all_targets g) dist
    (get_hypernyms g current ++ get_hyponyms g current) mine other queue) as Hvar.
  destruct (expand_neighbors _ _ _ _ _) as [[mine' queue']|]; [|done].
  unfold side_variant in *. simpl.
  assert (∀ h, h ∈ get_hypernyms g current ++ get_hyponyms g current →
               h ∈ all_targets g) as Hsub.
  { intros h [?|?]%elem_of_app;
      [by eapply get_hypernyms_all_targets | by eapply get_hyponyms_all_targets]. }
  specialize (Hvar Hsub). lia.
Qed.

Lemma fsp_bfs_total g a b : is_Some (fsp_bfs g a b).
Proof.
  unfold fsp_bfs.
  apply (while_loop_terminates _
    (λ st, side_variant (all_targets g) st.1.1.1 st.1.2 +
           side_variant (all_targets g) st.1.1.2 st.2)).
  - intros [[[visited1 visited2] queue1] queue2]. unfold fsp_step.
    pose proof (expand_side_variant g visited1 visited2 queue1) as H1.
    destruct (expand_side g visited1 visited2 queue1)
      as [[visited1' queue1']|] eqn:E1.
    2: { by destruct queue1, queue2. }
    pose proof (expand_side_variant g visited2 visited1' queue2) as H2.
    destruct (expand_side g visited2 visited1' queue2)
      as [[visited2' queue2']|] eqn:E2.
    2: { by destruct queue1, queue2. }
    destruct H1 as [H1 H1'], H2 as [H2 H2'].
    destruct queue1 as [|e1 queue1]; [destruct queue2 as [|e2 queue2]|];
      [done | |]; cbn [fst snd].
    + specialize (H2' ltac:(done)). lia.
    + specialize (H1' ltac:(done)). lia.
  - unfold fsp_fuel, side_variant. simpl.
    assert (∀ m : gmap str Z, size (all_targets g ∖ dom m) ≤ size (all_targets g)) as Hle.
    { intros m. apply subseteq_size. set_solver. }
    pose proof (Hle {[a := 0%Z]}). pose proof (Hle {[b := 0%Z]}). lia.
Qed.

Lemma hso_weight_pos branching k : 1 ≤ hso_weight branching k.
Proof. destruct k; simpl; lia. Qed.

Lemma hso_remaining_step path_len :
  (path_len ≤ MAX_PATH_LENGTH)%Z →
  hso_remaining path_len = S (hso_remaining (path_len + 1)).
Proof. unfold hso_remaining, MAX_PATH_LENGTH. lia. Qed.

Lemma try_neighbors_weight branching tgt dir path_len dir_changes last_dir
    visited neighbors queue best :
  hso_queue_weight branching
    (try_neighbors tgt dir path_len dir_changes last_dir visited neighbors
       queue best).1
  ≤ hso_queue_weight branching queue +
    length neighbors * hso_weight branching (hso_remaining (path_len + 1)).
Proof.
  revert queue best.
  induction neighbors as [|h hs IH]; intros queue best; simpl; [lia|].
  destruct (decide (h = tgt)); [etrans; [apply IH|]; lia|].
  destruct (decide (h ∈ visited)); [etrans; [apply IH|]; lia|].
  etrans; [apply IH|]. unfold hso_queue_weight.
  rewrite sum_list_with_app. simpl. lia.
Qed.

Lemma hso_bfs_total g a b : is_Some (hso_bfs g a b).
Proof.
  unfold hso_bfs.
  apply (while_loop_terminates _
    (λ st, hso_queue_weight (2 * max_degree g) st.1)).
  - intros [queue best].
    destruct queue as [|[[[[current path_len] dir_changes] last_dir] visited] queue];
      [done|].
    cbn [hso_step fst].
    change (hso_queue_weight (2 * max_degree g)
              ((current, path_len, dir_changes, last_dir, visited) :: queue))
      with (hso_weight (2 * max_degree g) (hso_remaining path_len) +
            hso_queue_weight (2 * max_degree g) queue).
    pose proof (hso_weight_pos (2 * max_degree g) (hso_remaining path_len)).
    destruct (MAX_PATH_LENGTH <? path_len)%Z eqn:Hlen; [cbn [fst]; lia|].
    destruct (MAX_DIRECTION_CHANGES <? dir_changes)%Z; [cbn [fst]; lia|].
    apply Z.ltb_ge in Hlen.
    pose proof (try_neighbors_weight (2 * max_degree g) b up path_len
      dir_changes last_dir visited (get_hypernyms g current) queue best) as Hup.
    destruct (try_neighbors b up _ _ _ _ _ _ _) as [queue1 best1]; cbn [fst] in Hup.
    pose proof (try_neighbors_weight (2 * max_degree g) b down path_len
      dir_changes last_dir visited (get_hyponyms g current) queue1 best1) as Hdown.
    destruct (try_neighbors b down _ _ _ _ _ _ _) as [queue2 best2];
      cbn [fst] in *.
    rewrite (hso_remaining_step path_len Hlen).
    cbn [hso_weight].
    pose proof (get_hypernyms_length g current).
    pose proof (get_hyponyms_length g current).
    nia.
  - unfold hso_fuel, hso_queue_weight. simpl. lia.
Qed.

(** ** The caches are transparent *)

Lemma frame_refl L : frame L L.
Proof. done. Qed.

Lemma frame_trans L1 L2 L3 : frame L1 L2 → frame L2 L3 → frame L1 L3.
Proof. unfold frame. intros (-> & -> & -> & ->) (-> & -> & -> & ->). done. Qed.

Lemma information_content_frame ln L L' k :
  frame L L' → information_content ln L' k = information_content ln L k.
Proof.
  intros (Hg & Hc & _). unfold information_content, ic_of_count.
  by rewrite Hg, Hc.
Qed.

Lemma caches_ok_new_loader ln g : caches_ok ln (new_loader g).
Proof.
  split_and!; intros k v Hk; cbn in Hk; by rewrite lookup_empty in Hk.
Qed.

Lemma get_depth_value L s :
  depth_cache_ok L → get_depth_bfs (rwn L) s = Some (get_depth s L).1.
Proof.
  intros Hok. unfold get_depth.
  destruct (_depth_cache L !! s) as [d|] eqn:Hs; simpl; [by apply Hok|].
  destruct (get_depth_bfs_spec (rwn L) s) as (d & -> & _). done.
Qed.

Lemma get_depth_keeps ln L s :
  caches_ok ln L →
  caches_ok ln (get_depth s L).2 ∧ frame L (get_depth s L).2.
Proof.
  intros (Hd & Hc & Hi). pose proof (get_depth_value L s Hd) as Hv.
  unfold get_depth in *.
  destruct (_depth_cache L !! s) as [d|] eqn:Hs; simpl in *; [done|].
  split; [|done]. split_and!; [|done|done].
  intros k d. simpl. rewrite lookup_insert.
  case_decide as Hk; [|by apply Hd]. intros [= <-]. by subst k.
Qed.

Lemma count_descendants_value L s :
  descendant_counts_ok L →
  (_count_descendants s L).1 = descendant_count (rwn L) s.
Proof.
  intros Hok. unfold _count_descendants, descendant_count.
  destruct (_descendant_counts L !! s) as [c|] eqn:Hs; simpl; [|done].
  by rewrite (Hok _ _ Hs).
Qed.

Lemma count_descendants_keeps ln L s :
  caches_ok ln L →
  caches_ok ln (_count_descendants s L).2 ∧ frame L (_count_descendants s L).2.
Proof.
  intros (Hd & Hc & Hi). unfold _count_descendants.
  destruct (_descendant_counts L !! s) as [c|] eqn:Hs; simpl; [done|].
  split; [|done]. split_and!; [done| |done].
  intros k c. simpl. rewrite lookup_insert.
  case_decide as Hk; [|by apply Hc]. intros [= <-]. subst k.
  by destruct (count_descendants_bfs_total (rwn L) s) as (c & -> & _).
Qed.

Lemma get_information_content_value ln L s :
  caches_ok ln L →
  (get_information_content ln s L).1 = information_content ln L s.
Proof.
  intros Hok. unfold get_information_content.
  destruct (_ic_cache L !! s) as [ic|] eqn:Hs; simpl.
  { destruct Hok as (_ & _ & Hi). by apply Hi. }
  pose proof (count_descendants_value L s (proj1 (proj2 Hok))) as Hv.
  pose proof (count_descendants_keeps ln L s Hok) as [_ Hf].
  destruct (_count_descendants s L) as [count L1]; simpl in *. subst count.
  destruct Hf as (Hg & Hc & _). unfold information_content, ic_of_count.
  by rewrite Hc.
Qed.

Lemma get_information_content_keeps ln L s :
  caches_ok ln L →
  caches_ok ln (get_information_content ln s L).2 ∧
  frame L (get_information_content ln s L).2.
Proof.
  intros Hok. pose proof (get_information_content_value ln L s Hok) as Hval.
  unfold get_information_content in *.
  destruct (_ic_cache L !! s) as [ic|] eqn:Hs; simpl; [done|].
  pose proof (count_descendants_keeps ln L s Hok) as [Hok1 Hf].
  destruct (_count_descendants s L) as [count L1]; simpl in *.
  destruct Hok1 as (Hd & Hc & Hi).
  split; [|by destruct Hf as (? & ? & ? & ?)].
  split_and!; [done | done |].
  intros k ic. simpl. rewrite lookup_insert.
  assert (∀ k', information_content ln
            (set_ic_cache L1 (<[s:=ic_of_count ln L1 count]> (_ic_cache L1))) k'
          = information_content ln L k') as Heq.
  { intros k'. apply information_content_frame.
    by destruct Hf as (? & ? & ? & ?). }
  rewrite Heq. case_decide as Hk.
  - intros [= <-]. by subst k.
  - intros Hk'. rewrite (Hi _ _ Hk'). by apply information_content_frame.
Qed.

Lemma deepest_of_keeps ln ids deepest max_depth L :
  caches_ok ln L →
  caches_ok ln (deepest_of ids deepest max_depth L).2 ∧
  frame L (deepest_of ids deepest max_depth L).2.
Proof.
  revert deepest max_depth L.
  induction ids as [|x ids IH]; intros deepest max_depth L Hok; simpl; [done|].
  unfold mbind, Run_bind.
  pose proof (get_depth_keeps ln L x Hok) as [Hok1 Hf1].
  destruct (get_depth x L) as [depth L1]; simpl in *.
  destruct (max_depth <? depth)%Z.
  - destruct (IH (Some x) depth L1 Hok1) as [? ?].
    split; [done | by eapply frame_trans].
  - destruct (IH deepest max_depth L1 Hok1) as [? ?].
    split; [done | by eapply frame_trans].
Qed.

Lemma find_lcs_keeps ln a b L :
  caches_ok ln L →
  caches_ok ln (find_lcs a b L).2 ∧ frame L (find_lcs a b L).2.
Proof.
  intros Hok. unfold find_lcs.
  destruct (decide (a = b)); [done|].
  destruct (decide (common_ancestors (rwn L) a b = ∅)); [done|].
  by apply deepest_of_keeps.
Qed.

(** ** The word-level helpers of [BaseSimilarity] *)

Section base_properties.
Context (alg : BaseSimilarity).





Lemma compare_with_none s1 synsets2 results L :
  (∀ s2, s2 ∈ synsets2 → get_synset_pos s1 ≠ get_synset_pos s2) →
  compare_with alg s1 synsets2 results L = (results, L).
Proof.
  induction synsets2 as [|s2 rest IH]; intros Hne; simpl; [done|].
  destruct (decide (get_synset_pos s1 = get_synset_pos s2)) as [Hpos|Hpos].
  - destruct (Hne s2); [left | done].
  - apply IH. intros s2' Hin. apply Hne. by right.
Qed.

Lemma compare_all_none synsets1 synsets2 results L :
  (∀ s1 s2, s1 ∈ synsets1 → s2 ∈ synsets2 →
            get_synset_pos s1 ≠ get_synset_pos s2) →
  compare_all alg synsets1 synsets2 results L = (results, L).
Proof.
  induction synsets1 as [|s1 rest IH]; intros Hne; simpl; [done|].
  unfold mbind, Run_bind. rewrite compare_with_none.
  - apply IH. intros s1' s2 Hin. apply Hne. by right.
  - intros s2. apply Hne. left.
Qed.

Lemma calculate_word_similarity_none word1 word2 L :
  (∀ s1 s2, s1 ∈ get_synsets_for_word L word1 →
            s2 ∈ get_synsets_for_word L word2 →
            get_synset_pos s1 ≠ get_synset_pos s2) →
  calculate_word_similarity alg word1 word2 L = ([], L).
Proof.
  intros Hne. unfold calculate_word_similarity.
  destruct (get_synsets_for_word L word1) as [|s1 l1]; [done|].
  destruct (get_synsets_for_word L word2) as [|s2 l2]; [done|].
  by apply compare_all_none.
Qed.

Lemma calculate_word_similarity_unknown word1 word2 L :
  get_synsets_for_word L word1 = [] ∨ get_synsets_for_word L word2 = [] →
  calculate_word_similarity alg word1 word2 L = ([], L).
Proof.
  unfold calculate_word_similarity. intros [-> | ->]; [done|].
  by destruct (get_synsets_for_word L word1).
Qed.

Lemma no_results_outcomes word1 word2 L :
  calculate_word_similarity alg word1 word2 L = ([], L) →
  get_max_similarity alg word1 word2 L = (0%Q, L) ∧
  get_best_pair alg word1 word2 L = (None, L).
Proof.
  intros Hnone. unfold get_max_similarity, get_best_pair, mbind, Run_bind.
  by rewrite Hnone.
Qed.
End base_properties.

(** C10.  For every measure and two words that both have candidate synsets,
    if no candidate pair has equal part-of-speech then the max-similarity
    helper returns 0.0 and the best-pair helper returns none, leaving the
    loader as it was; these are the outcomes for a pair of words one of
    which is unknown. *)
Theorem no_compatible_pair_is_like_unknown_word
    (alg : BaseSimilarity) (L : RoWordNetLoader) (word1 word2 : str) :
  get_synsets_for_word L word1 ≠ [] →
  get_synsets_for_word L word2 ≠ [] →
  (∀ s1 s2, s1 ∈ get_synsets_for_word L word1 →
            s2 ∈ get_synsets_for_word L word2 →
            get_synset_pos s1 ≠ get_synset_pos s2) →
  (get_max_similarity alg word1 word2 L = (0%Q, L) ∧
   get_best_pair alg word1 word2 L = (None, L)) ∧
  (∀ u v,
     get_synsets_for_word L u = [] ∨ get_synsets_for_word L v = [] →
     get_max_similarity alg u v L = (0%Q, L) ∧
     get_best_pair alg u v L = (None, L)).
Proof.
  intros _ _ Hne. split.
  - by apply no_results_outcomes, calculate_word_similarity_none.
  - intros u v Hunknown.
    by apply no_results_outcomes, calculate_word_similarity_unknown.
Qed.

(** ** Depth *)

(** C7.  With a depth cache that holds only computed depths, the depth of a
    synset is at least 1; it is 1 for a synset without hypernyms; it is one
    more than the least number of hypernym hops to a root; and it is 1 when
    no root can be reached. *)
Theorem get_depth_is_one_plus_root_distance (L : RoWordNetLoader) (s : str) :
  depth_cache_ok L →
  (1 ≤ (get_depth s L).1)%Z ∧
  (is_root (rwn L) s → (get_depth s L).1 = 1%Z) ∧
  (∀ n, root_distance (rwn L) s n → (get_depth s L).1 = (Z.of_nat n + 1)%Z) ∧
  ((∀ n r, hops (rwn L) n s r → ¬ is_root (rwn L) r) → (get_depth s L).1 = 1%Z).
Proof.
  intros Hok. pose proof (get_depth_value L s Hok) as Hval.
  destruct (get_depth_bfs_spec (rwn L) s) as (d & Hd & Hone & Hdist & Hnone).
  rewrite Hd in Hval. injection Hval as <-.
  split_and!; [done | | done | done].
  intros Hroot. apply (Hdist 0). split.
  - exists s. split; [done | constructor].
  - intros; lia.
Qed.

Lemma tree_graph_root_distance : root_distance tree_graph (U "A1") 2.
Proof.
  assert (get_hypernyms tree_graph (U "A1") = [U "A"]) as HA1 by by vm_compute.
  assert (get_hypernyms tree_graph (U "A") = [U "R"]) as HA by by vm_compute.
  assert (get_hypernyms tree_graph (U "R") = []) as HR by by vm_compute.
  split.
  - exists (U "R"). split; [done|].
    eapply hops_S; [rewrite HA1; left|].
    eapply hops_S; [rewrite HA; left|]. constructor.
  - intros m r Hr Hm. destruct m as [|[|m]]; [| |lia].
    + apply hops_O_inv in Hm as <-. unfold is_root in Hr. by rewrite HA1 in Hr.
    + apply hops_S_inv in Hm as (y & Hy & Hm). apply hops_O_inv in Hm as <-.
      rewrite HA1 in Hy. apply list_elem_of_singleton in Hy as ->.
      unfold is_root in Hr. by rewrite HA in Hr.
Qed.

Lemma get_depth_is_one_plus_root_distance_witness :
  depth_cache_ok (new_loader tree_graph) ∧
  root_distance (rwn (new_loader tree_graph)) (U "A1") 2 ∧
  (get_depth (U "A1") (new_loader tree_graph)).1 = 3%Z.
Proof.
  pose proof (proj1 (caches_ok_new_loader (λ q, q) tree_graph)) as Hok.
  split; [exact Hok|]. split; [exact tree_graph_root_distance|].
  exact (proj1 (proj2 (proj2
    (get_depth_is_one_plus_root_distance (new_loader tree_graph) (U "A1") Hok)))
    2 tree_graph_root_distance).
Defined.

Lemma get_depth_keeps_cache_ok L s :
  depth_cache_ok L → depth_cache_ok (get_depth s L).2.
Proof.
  intros Hd k d. pose proof (get_depth_value L s Hd) as Hv.
  unfold get_depth in *.
  destruct (_depth_cache L !! s) as [d'|] eqn:Hs; simpl in *; [by apply Hd|].
  rewrite lookup_insert. case_decide as Hk; [|by apply Hd].
  intros [= <-]. by subst k.
Qed.

(** ** Degenerate denominators *)

(** LIN on distinct synsets returns 0.0 when IC(A) + IC(B) = 0, whether or
    not the two have a common subsumer. *)
Lemma lin_zero_denominator_gives_zero (ln : Q → Q) L a b :
  a ≠ b → caches_ok ln L →
  (information_content ln L a + information_content ln L b == 0)%Q →
  (lin_similarity ln a b L).1 = 0%Q.
Proof.
  intros Hne Hok Hzero. unfold lin_similarity.
  destruct (decide (a = b)); [done|].
  unfold mbind, Run_bind, mret, Run_ret.
  pose proof (find_lcs_keeps ln a b L Hok) as [Hok1 Hf1].
  destruct (find_lcs a b L) as [[lcs|] L1]; simpl in *; [|done].
  pose proof (get_information_content_value ln L1 a Hok1) as Ha.
  pose proof (get_information_content_keeps ln L1 a Hok1) as [Hok2 Hf2].
  destruct (get_information_content ln a L1) as [ic_s1 L2]; simpl in *.
  pose proof (get_information_content_value ln L2 b Hok2) as Hb.
  destruct (get_information_content ln b L2) as [ic_s2 L3]; simpl in *.
  destruct (get_information_content ln lcs L3) as [ic_lcs L4]; simpl.
  rewrite (information_content_frame ln L L1 a Hf1) in Ha.
  rewrite (information_content_frame ln L L2 b (frame_trans _ _ _ Hf1 Hf2)) in Hb.
  subst ic_s1 ic_s2. apply Qeq_bool_iff in Hzero. by rewrite Hzero.
Qed.

(** An instance: on [loop_graph] both synsets reach three identifiers
    downwards among two synsets, so with a logarithm that vanishes at 1
    both information contents are 0. *)
Lemma lin_zero_denominator_example :
  (information_content (λ q, q - 1)%Q (new_loader loop_graph) (U "A") +
   information_content (λ q, q - 1)%Q (new_loader loop_graph) (U "B") == 0)%Q ∧
  (lin_similarity (λ q, q - 1)%Q (U "A") (U "B") (new_loader loop_graph)).1 = 0%Q.
Proof.
  assert ((information_content (λ q, q - 1)%Q (new_loader loop_graph) (U "A") +
           information_content (λ q, q - 1)%Q (new_loader loop_graph) (U "B")
           == 0)%Q) as Hzero by (vm_compute; reflexivity).
  split; [exact Hzero|].
  apply lin_zero_denominator_gives_zero;
    [by vm_compute | apply caches_ok_new_loader | exact Hzero].
Qed.

(** C9.  LCH misses the degenerate case of the per-category table.  On a
    chain of twenty hypernym edges whose synsets carry the part of speech
    as the number 2, the loader reads the category as adjective, for which
    the table gives the maximum depth 10; the two ends are 20 edges apart,
    so pathLen + 1 = 21 ≥ 2·10 + 1.  LCH looks the table up with the raw
    value 2, gets the default 20, and returns −ln(21/41), which is 0 only
    for a logarithm that vanishes at 21/41.  On the same chain with the
    part of speech given as the letter a it returns 0.0. *)
Theorem lch_misses_degenerate_case_for_coded_pos (ln : Q → Q) :
  get_synset (chain_name 0) (new_loader (coded_chain_graph 20)) =
    (Some (coded_chain_synset 0), new_loader (coded_chain_graph 20)) ∧
  get_synset_pos (coded_chain_synset 0) = U "a" ∧
  spec_max_depth (U "a") = Some 10%Z ∧
  find_shortest_path_length (coded_chain_graph 20) (chain_name 0)
    (chain_name 20) = 20%Z ∧
  (2 * 10 + 1 ≤ 20 + 1)%Z ∧
  get_max_depth (new_loader (coded_chain_graph 20))
    (syn_pos (coded_chain_synset 0)) = 20%Z ∧
  (lch_similarity ln (chain_name 0) (chain_name 20)
     (new_loader (coded_chain_graph 20))).1 = (- ln (21 # 41))%Q ∧
  (((lch_similarity ln (chain_name 0) (chain_name 20)
       (new_loader (coded_chain_graph 20))).1 == 0)%Q ↔
   (ln (21 # 41) == 0)%Q) ∧
  (lch_similarity ln (chain_name 0) (chain_name 20)
     (new_loader (chain_graph 20))).1 = 0%Q.
Proof.
  assert ((lch_similarity ln (chain_name 0) (chain_name 20)
             (new_loader (coded_chain_graph 20))).1 = (- ln (21 # 41))%Q)
    as Hval by (vm_compute; reflexivity).
  split_and!.
  - vm_compute. reflexivity.
  - vm_compute. reflexivity.
  - vm_compute. reflexivity.
  - vm_compute. reflexivity.
  - lia.
  - vm_compute. reflexivity.
  - exact Hval.
  - rewrite Hval. unfold Qeq, Qopp. simpl. lia.
  - vm_compute. reflexivity.
Qed.

Lemma no_compatible_pair_is_like_unknown_word_witness :
  get_synsets_for_word (new_loader mixed_pos_graph) (U "alerga") ≠ [] ∧
  get_synsets_for_word (new_loader mixed_pos_graph) (U "cursa") ≠ [] ∧
  get_max_similarity LeskSimilarity (U "alerga") (U "cursa")
    (new_loader mixed_pos_graph) = (0%Q, new_loader mixed_pos_graph) ∧
  get_best_pair LeskSimilarity (U "alerga") (U "cursa")
    (new_loader mixed_pos_graph) = (None, new_loader mixed_pos_graph).
Proof.
  assert (get_synsets_for_word (new_loader mixed_pos_graph) (U "alerga") ≠ [])
    as H1 by by vm_compute.
  assert (get_synsets_for_word (new_loader mixed_pos_graph) (U "cursa") ≠ [])
    as H2 by by vm_compute.
  assert (get_synsets_for_word (new_loader mixed_pos_graph) (U "alerga")
          = [run_v])
    as E1 by by vm_compute.
  assert (get_synsets_for_word (new_loader mixed_pos_graph) (U "cursa")
          = [race_n])
    as E2 by by vm_compute.
  assert (∀ s1 s2,
            s1 ∈ get_synsets_for_word (new_loader mixed_pos_graph) (U "alerga") →
            s2 ∈ get_synsets_for_word (new_loader mixed_pos_graph) (U "cursa") →
            get_synset_pos s1 ≠ get_synset_pos s2) as Hne.
  { intros s1 s2 Hs1 Hs2. rewrite E1 in Hs1. rewrite E2 in Hs2.
    apply list_elem_of_singleton in Hs1 as ->.
    apply list_elem_of_singleton in Hs2 as ->.
    by vm_compute. }
  split; [exact H1|]. split; [exact H2|].
  exact (proj1 (no_compatible_pair_is_like_unknown_word LeskSimilarity
                  (new_loader mixed_pos_graph) (U "alerga") (U "cursa")
                  H1 H2 Hne)).
Defined.

(** ** Part-of-speech filtering *)


(** ** Evaluations on the sample taxonomies *)

Lemma find_shortest_path_length_same g s : find_shortest_path_length g s s = 0%Z.
Proof. unfold find_shortest_path_length. by destruct (decide (s = s)). Qed.

(** C6.  On [diamond_graph], whose shortest undirected path between [a]
    and [b] has three edges ([a], [q], [v], [b]), the search returns 4 from
    [a] to [b] and 3 from [b] to [a]. *)
Theorem shortest_path_length_not_symmetric :
  find_shortest_path_length diamond_graph (U "a") (U "b") = 4%Z ∧
  find_shortest_path_length diamond_graph (U "b") (U "a") = 3%Z.
Proof. split; by vm_compute. Qed.

(** C4.  On [diamond_graph] the PATH score of [(a, b)] is 1/5 and that of
    [(b, a)] is 1/4. *)
Theorem path_similarity_not_symmetric :
  (path_similarity (U "a") (U "b") (new_loader diamond_graph)).1 = (1 # 5)%Q ∧
  (path_similarity (U "b") (U "a") (new_loader diamond_graph)).1 = (1 # 4)%Q.
Proof. split; by vm_compute. Qed.

(** C3.  On [shortcut_graph] the two synsets have depth 2, their least
    common subsumer has depth 3, and their WUP score is 3/2. *)
Theorem wup_similarity_exceeds_one :
  (get_depth (U "s1") (new_loader shortcut_graph)).1 = 2%Z ∧
  (get_depth (U "s2") (new_loader shortcut_graph)).1 = 2%Z ∧
  (find_lcs (U "s1") (U "s2") (new_loader shortcut_graph)).1 = Some (U "P") ∧
  (get_depth (U "P") (new_loader shortcut_graph)).1 = 3%Z ∧
  ((wup_similarity (U "s1") (U "s2") (new_loader shortcut_graph)).1 == 3 # 2)%Q ∧
  (1 < (wup_similarity (U "s1") (U "s2") (new_loader shortcut_graph)).1)%Q.
Proof. split_and!; by vm_compute. Qed.

(** C2.  On a chain of nine hypernym edges the constrained search returns
    the path of length 9, one more than [MAX_PATH_LENGTH], and HSO scores
    the pair 7. *)
Theorem hso_search_returns_path_beyond_bound :
  hso_bfs (chain_graph 9) (chain_name 0) (chain_name 9) = Some (Some (9, 0)%Z) ∧
  _find_path_with_directions (chain_graph 9) (chain_name 0) (chain_name 9)
  = Some (9, 0)%Z ∧
  (MAX_PATH_LENGTH < 9)%Z ∧
  (hso_similarity (chain_name 0) (chain_name 9) (new_loader (chain_graph 9))).1
  = 7%Q.
Proof. split_and!; by vm_compute. Qed.

(** C5.  The tokenizer yields no token for "câine" or "mașină": â and ș lie
    outside its character class but are word characters, so no run next to
    them ends at a word boundary.  "apă" is kept, ă being inside the class. *)
Theorem tokenize_drops_words_with_romanian_letters :
  regex_class 226 = false ∧ regex_class 238 = false ∧
  regex_class 537 = false ∧ regex_class 539 = false ∧
  regex_class 259 = true ∧
  _tokenize caine = ∅ ∧ _tokenize masina = ∅ ∧ _tokenize apa = {[apa]}.
Proof. split_and!; by vm_compute. Qed.

(** ** What does hold of the ranges *)

Lemma same_synset_scores_one ln s L :
  (path_similarity s s L).1 = 1%Q ∧
  (wup_similarity s s L).1 = 1%Q ∧
  (lin_similarity ln s s L).1 = 1%Q.
Proof.
  unfold path_similarity, wup_similarity, lin_similarity.
  by destruct (decide (s = s)).
Qed.

Lemma path_similarity_range a b L :
  (0 <= (path_similarity a b L).1 <= 1)%Q.
Proof.
  unfold path_similarity. destruct (decide (a = b)) as [_|_]; [done|].
  destruct (find_shortest_path_length (rwn L) a b <=? 0)%Z eqn:Hle; [done|].
  apply Z.leb_gt in Hle. simpl.
  remember (find_shortest_path_length (rwn L) a b + 1)%Z as len eqn:Hlen.
  assert (1 < len)%Z as Hn by lia.
  destruct len as [|p|p]; [lia| |lia].
  unfold Qle, Qdiv, Qmult, Qinv. simpl. lia.
Qed.

(** * Further properties of the engine *)

(** ** Walks *)

Lemma walk_snoc (next : str → list str) n x y z :
  walk next n x y → z ∈ next y → walk next (S n) x z.
Proof.
  induction 1 as [x|n x y' y Hxy Hh IH]; intros Hz.
  - eapply walk_S; [done | constructor].
  - eapply walk_S; [done | by apply IH].
Qed.

Lemma walk_snoc_inv (next : str → list str) n x z :
  walk next (S n) x z → ∃ y, walk next n x y ∧ z ∈ next y.
Proof.
  revert x. induction n as [|n IH]; intros x Hw.
  - inversion Hw as [|? ? y ? Hy Hw']; subst.
    inversion Hw'; subst. exists x. split; [constructor | done].
  - inversion Hw as [|? ? y ? Hy Hw']; subst.
    destruct (IH _ Hw') as (y' & Hy' & Hz).
    exists y'. split; [by eapply walk_S | done].
Qed.

Lemma hops_walk g n x y : hops g n x y ↔ walk (get_hypernyms g) n x y.
Proof.
  split; induction 1; try constructor; by econstructor.
Qed.

(** A set that contains [s] and is closed under [next] contains everything
    a walk from [s] reaches. *)
Lemma walk_closed (next : str → list str) (X : gset str) s :
  s ∈ X → (∀ x h, x ∈ X → h ∈ next x → h ∈ X) →
  ∀ n y, walk next n s y → y ∈ X.
Proof.
  intros Hs Hclosed n. induction n as [|n IH]; intros y Hw.
  - by inversion Hw; subst.
  - apply walk_snoc_inv in Hw as (y' & Hw & Hy). eauto.
Qed.

(** ** [_get_all_ancestors] *)

Lemma add_ancestors_spec hypernyms ancestors queue :
  let '(ancestors', queue') := add_ancestors hypernyms ancestors queue in
  ancestors' = ancestors ∪ list_to_set hypernyms ∧
  ∃ new, queue' = queue ++ new ∧
         ∀ x, x ∈ new ↔ x ∈ hypernyms ∧ x ∉ ancestors.
Proof.
  revert ancestors queue.
  induction hypernyms as [|h hs IH]; intros ancestors queue; simpl.
  { split; [set_solver|]. exists []. rewrite app_nil_r. set_solver. }
  destruct (decide (h ∈ ancestors)) as [Hh|Hh].
  - specialize (IH ancestors queue).
    destruct (add_ancestors hs ancestors queue) as [ancestors' queue'].
    destruct IH as (-> & new & -> & Hnew).
    split; [set_solver|]. exists new. split; [done|].
    intros x. rewrite Hnew. set_solver.
  - specialize (IH ({[h]} ∪ ancestors) (queue ++ [h])).
    destruct (add_ancestors hs _ _) as [ancestors' queue'].
    destruct IH as (-> & new & -> & Hnew).
    split; [set_solver|]. exists (h :: new).
    split; [by rewrite <- app_assoc|].
    intros x. rewrite elem_of_cons, Hnew.
    destruct (decide (x = h)) as [->|]; set_solver.
Qed.

Lemma ancestors_bfs_spec g s :
  ∃ A, ancestors_bfs g s = Some A ∧ ∀ x, x ∈ A ↔ ∃ n, hops g (S n) s x.
Proof.
  unfold ancestors_bfs.
  apply (while_loop_total _
    (λ st : gset str * list str,
       (∀ x, x ∈ st.1 → ∃ n, hops g (S n) s x) ∧
       (∀ q, q ∈ st.2 → q = s ∨ q ∈ st.1) ∧
       (∀ x, x = s ∨ x ∈ st.1 → x ∉ st.2 →
             ∀ h, h ∈ get_hypernyms g x → h ∈ st.1))
    (λ st, length st.2 + 2 * size (all_targets g ∖ st.1))).
  - intros [ancestors queue] (Hsound & Hqueue & Hclosed); simpl in *.
    destruct queue as [|current queue]; simpl.
    { intros x. split; [apply Hsound|]. intros [n Hn].
      assert (∀ m y, hops g m s y → y = s ∨ y ∈ ancestors) as Hall.
      { intros m. induction m as [|m IH]; intros y Hm.
        - left. by apply hops_O_inv in Hm.
        - apply hops_walk in Hm. apply walk_snoc_inv in Hm as (y' & Hm & Hy).
          apply hops_walk in Hm.
          right. apply (Hclosed y'); [by apply IH | apply not_elem_of_nil | done]. }
      apply hops_walk in Hn. apply walk_snoc_inv in Hn as (y' & Hn & Hy).
      apply hops_walk in Hn.
      apply (Hclosed y'); [by apply (Hall n) | apply not_elem_of_nil | done]. }
    pose proof (add_ancestors_variant (all_targets g)
      (get_hypernyms g current) ancestors queue
      (get_hypernyms_all_targets g current)) as Hvar.
    pose proof (add_ancestors_spec (get_hypernyms g current) ancestors queue)
      as Hspec.
    destruct (add_ancestors _ _ _) as [ancestors' queue']. simpl.
    destruct Hspec as (-> & new & -> & Hnew).
    split; [|lia]. split_and!.
    + intros x [Hx|Hx%elem_of_list_to_set]%elem_of_union; [by apply Hsound|].
      destruct (Hqueue current) as [->|Hc]; [left | |].
      * exists 0. eapply hops_S; [done | constructor].
      * destruct (Hsound _ Hc) as [n Hn]. exists (S n). by eapply hops_snoc.
    + intros q [Hq|Hq]%elem_of_app.
      * destruct (Hqueue q) as [->|?]; [by right | by left | right; set_solver].
      * right. apply Hnew in Hq. set_solver.
    + intros x Hx Hnq h Hh.
      assert (x ∉ queue ∧ x ∉ new) as [Hq Hn] by set_solver.
      destruct (decide (x = current)) as [->|Hne]; [set_solver|].
      assert (x = s ∨ x ∈ ancestors) as Hx'.
      { destruct Hx as [?|[?|Hx%elem_of_list_to_set]%elem_of_union];
          [by left | by right |].
        destruct (decide (x ∈ ancestors)); [by right|].
        destruct Hn. apply Hnew. done. }
      apply elem_of_union. left. apply (Hclosed x Hx'); [|done].
      set_solver.
  - simpl. split_and!.
    + intros x Hx. by apply not_elem_of_empty in Hx.
    + intros q ->%list_elem_of_singleton. by left.
    + intros x [->|Hx] Hn; [destruct Hn; left|].
      by apply not_elem_of_empty in Hx.
  - unfold ancestors_fuel. simpl.
    assert (size (all_targets g ∖ ∅) ≤ size (all_targets g)).
    { apply subseteq_size. set_solver. }
    lia.
Qed.

(** X1.  [_get_all_ancestors] returns exactly the synsets reached from the
    start by one or more hypernym edges. *)
Theorem all_ancestors_are_the_hypernym_closure (g : RoWordNet) (s x : str) :
  x ∈ _get_all_ancestors g s ↔ ∃ n, hops g (S n) s x.
Proof.
  unfold _get_all_ancestors.
  destruct (ancestors_bfs_spec g s) as (A & -> & HA). apply HA.
Qed.

(** ** [_count_descendants] *)

Lemma count_descendants_bfs_spec g s :
  ∃ c, count_descendants_bfs g s = Some c ∧
       ∃ D : gset str, (∀ x, x ∈ D ↔ descends g s x) ∧ c = Z.of_nat (size D).
Proof.
  unfold count_descendants_bfs.
  apply (while_loop_total _
    (λ st : gset str * list str * Z,
       st.2 = Z.of_nat (size st.1.1) ∧
       (∀ x, x ∈ st.1.1 → descends g s x) ∧
       (∀ q, q ∈ st.1.2 → descends g s q) ∧
       (s ∈ st.1.1 ∨ s ∈ st.1.2) ∧
       (∀ x h, x ∈ st.1.1 → h ∈ get_hyponyms g x → h ∈ st.1.1 ∨ h ∈ st.1.2))
    (λ st, length st.1.2 +
           (max_degree g + 1) * size (dom (rwn_relations g) ∖ st.1.1))).
  - intros [[visited queue] count] (Hcount & Hvis & Hqueue & Hstart & Hclosed);
      simpl in *.
    destruct queue as [|current queue]; simpl.
    { exists visited. split; [|done]. intros x. split; [apply Hvis|].
      intros [n Hn]. destruct Hstart as [Hs|Hs]; [|by apply elem_of_nil in Hs].
      apply (walk_closed (get_hyponyms g) visited s Hs) with n; [|done].
      intros y h Hy Hh. destruct (Hclosed y h Hy Hh) as [?|Hq]; [done|].
      by apply elem_of_nil in Hq. }
    destruct (decide (current ∈ visited)) as [Hv|Hv]; simpl.
    { split; [|lia]. split_and!; [done | done | | |].
      - intros q Hq. apply Hqueue. by right.
      - destruct Hstart as [?|[->|?]%elem_of_cons]; [by left | by left | by right].
      - intros x h Hx Hh.
        destruct (Hclosed x h Hx Hh) as [?|[->|?]%elem_of_cons];
          [by left | by left | by right]. }
    split.
    + split_and!.
      * rewrite size_union by set_solver. rewrite size_singleton. lia.
      * intros x [->%elem_of_singleton|Hx]%elem_of_union; [|by apply Hvis].
        apply Hqueue. left.
      * intros q [Hq|Hq]%elem_of_app; [apply Hqueue; by right|].
        apply list_elem_of_filter in Hq as [_ Hq].
        destruct (Hqueue current) as [n Hn]; [left|].
        exists (S n). by eapply walk_snoc.
      * destruct Hstart as [?|[->|?]%elem_of_cons];
          [left; set_solver | left; set_solver | right; set_solver].
      * intros x h [->%elem_of_singleton|Hx]%elem_of_union Hh.
        -- destruct (decide (h ∈ {[current]} ∪ visited)); [by left|].
           right. apply elem_of_app. right. by apply list_elem_of_filter.
        -- destruct (Hclosed x h Hx Hh) as [?|[->|?]%elem_of_cons];
             [left; set_solver | left; set_solver | right; set_solver].
    + rewrite length_app.
      pose proof (get_hyponyms_length g current) as Hdeg.
      pose proof (length_filter (λ h, h ∉ {[current]} ∪ visited)
                    (get_hyponyms g current)) as Hfil.
      destruct (get_hyponyms g current) as [|h hs] eqn:Hhyp; simpl in *.
      * assert (size (dom (rwn_relations g) ∖ ({[current]} ∪ visited))
                ≤ size (dom (rwn_relations g) ∖ visited)).
        { apply subseteq_size. set_solver. }
        nia.
      * assert (current ∈ dom (rwn_relations g)) as Hdom.
        { apply (get_hyponyms_dom g current h). rewrite Hhyp. left. }
        pose proof (unvisited_size_decreases _ _ _ Hdom Hv). nia.
  - cbn [fst snd]. split_and!.
    + by rewrite size_empty.
    + intros x Hx. by apply not_elem_of_empty in Hx.
    + intros q ->%list_elem_of_singleton. exists 0. constructor.
    + right. left.
    + intros x h Hx. by apply not_elem_of_empty in Hx.
  - unfold get_depth_fuel. simpl.
    assert (size (dom (rwn_relations g) ∖ ∅) ≤ size (dom (rwn_relations g))).
    { apply subseteq_size. set_solver. }
    nia.
Qed.

(** X2.  With a descendant cache that holds only computed counts,
    [_count_descendants] returns the number of synsets reached from the
    start along hyponym edges, the start included; so it is at least 1. *)
Theorem count_descendants_is_size_of_hyponym_closure
    (L : RoWordNetLoader) (s : str) :
  descendant_counts_ok L →
  (1 ≤ (_count_descendants s L).1)%Z ∧
  ∃ D : gset str,
    (∀ x, x ∈ D ↔ descends (rwn L) s x) ∧
    (_count_descendants s L).1 = Z.of_nat (size D).
Proof.
  intros Hok. rewrite (count_descendants_value L s Hok).
  unfold descendant_count.
  destruct (count_descendants_bfs_spec (rwn L) s) as (c & Hc & D & HD & ->).
  destruct (count_descendants_bfs_total (rwn L) s) as (c' & Hc' & Hpos).
  rewrite Hc in *. injection Hc' as <-. simpl.
  split; [done|]. by exists D.
Qed.

Lemma count_descendants_is_size_of_hyponym_closure_witness :
  descendant_counts_ok (new_loader tree_graph) ∧
  (_count_descendants (U "R") (new_loader tree_graph)).1 = 4%Z ∧
  (1 ≤ (_count_descendants (U "A") (new_loader tree_graph)).1)%Z.
Proof.
  pose proof (proj1 (proj2 (caches_ok_new_loader (λ q, q) tree_graph))) as Hok.
  split; [exact Hok|]. split; [by vm_compute|].
  exact (proj1 (count_descendants_is_size_of_hyponym_closure
                  (new_loader tree_graph) (U "A") Hok)).
Defined.

(** ** Memoization *)


(** X4.  Caches that hold only computed values stay so under every method
    that writes them, the loader's graph and synset table stay as they
    were, and each method returns the value of the uncached computation. *)
Theorem caches_are_transparent (ln : Q → Q) (L : RoWordNetLoader) (s t : str) :
  caches_ok ln L →
  ((get_depth s L).1 = depth (rwn L) s ∧
   (_count_descendants s L).1 = descendant_count (rwn L) s ∧
   (get_information_content ln s L).1 = information_content ln L s) ∧
  (caches_ok ln (get_depth s L).2 ∧ frame L (get_depth s L).2) ∧
  (caches_ok ln (_count_descendants s L).2 ∧
   frame L (_count_descendants s L).2) ∧
  (caches_ok ln (get_information_content ln s L).2 ∧
   frame L (get_information_content ln s L).2) ∧
  (caches_ok ln (find_lcs s t L).2 ∧ frame L (find_lcs s t L).2).
Proof.
  intros Hok. split.
  { split; [|split].
    - unfold depth. by rewrite (get_depth_value L s (proj1 Hok)).
    - apply count_descendants_value, Hok.
    - by apply get_information_content_value. }
  split; [by apply get_depth_keeps|].
  split; [by apply count_descendants_keeps|].
  split; [by apply get_information_content_keeps | by apply find_lcs_keeps].
Qed.

Lemma caches_are_transparent_witness :
  caches_ok (λ q, q - 1)%Q (new_loader tree_graph) ∧
  (get_depth (U "A1") (new_loader tree_graph)).1 = depth tree_graph (U "A1") ∧
  caches_ok (λ q, q - 1)%Q
    (find_lcs (U "A1") (U "B") (new_loader tree_graph)).2.
Proof.
  pose proof (caches_ok_new_loader (λ q, q - 1)%Q tree_graph) as Hok.
  pose proof (caches_are_transparent (λ q, q - 1)%Q (new_loader tree_graph)
                (U "A1") (U "B") Hok) as (Hval & _ & _ & _ & Hlcs).
  split; [exact Hok|]. split; [exact (proj1 Hval) | exact (proj1 Hlcs)].
Defined.

(** ** [find_shortest_path_length] *)

Lemma while_loop_invariant {S R : Type} (step : S → S + R)
    (Inv : S → Prop) (Post : R → Prop) :
  (∀ s, Inv s →
     match step s with
     | inl s' => Inv s'
     | inr r => Post r
     end) →
  ∀ fuel s r, Inv s → while_loop step fuel s = Some r → Post r.
Proof.
  intros Hstep fuel. induction fuel as [|fuel IH]; intros s r Hinv; [done|].
  simpl. specialize (Hstep s Hinv). destruct (step s) as [s'|r'].
  - by apply IH.
  - by intros [= <-].
Qed.

Lemma expand_neighbors_spec g a b current dist neighbors mine other queue :
  side_inv g a mine queue [current] →
  mine !! current = Some dist →
  (∀ h, h ∈ neighbors → h ∈ get_related_synsets g current) →
  (∀ x d, other !! x = Some d →
     ∃ m : nat, d = Z.of_nat m ∧ walk (get_related_synsets g) m b x) →
  sides_apart mine other →
  match expand_neighbors dist neighbors mine other queue with
  | inl (mine', queue') =>
      side_inv g a mine' queue' [current] ∧
      (∀ x, is_Some (mine !! x) → is_Some (mine' !! x)) ∧
      (∀ h, h ∈ neighbors → is_Some (mine' !! h)) ∧
      sides_apart mine' other
  | inr r => meet_at g a b r
  end.
Proof.
  revert mine queue.
  induction neighbors as [|h rest IH];
    intros mine queue Hside Hcur Hnb Hother Hapart; simpl.
  { split_and!; [done | done | | done].
    intros h Hh. by apply elem_of_nil in Hh. }
  assert (∀ h', h' ∈ rest → h' ∈ get_related_synsets g current) as Hnb'
    by (intros; apply Hnb; by right).
  destruct (mine !! h) as [dh|] eqn:Hh.
  { specialize (IH mine queue Hside Hcur Hnb' Hother Hapart).
    destruct (expand_neighbors _ _ _ _ _) as [[mine' queue']|]; [|done].
    destruct IH as (Hside' & Hmono & Hin & Hapart').
    split_and!; [done | done | | done].
    intros h' [->|?]%elem_of_cons; [|by apply Hin].
    apply Hmono. by rewrite Hh. }
  destruct Hside as (Hstart & Hwalk & Hqueue & Hclosed).
  destruct (Hwalk _ _ Hcur) as (n & Hn & Hwn).
  assert (walk (get_related_synsets g) (S n) a h) as Hwh.
  { eapply walk_snoc; [done|]. apply Hnb. left. }
  destruct (other !! h) as [d|] eqn:Ho.
  { destruct (Hother _ _ Ho) as (m & -> & Hm). split; [lia|].
    exists h, (S n), m. split_and!; [done | done | lia]. }
  assert (h ≠ current) as Hne by (intros ->; by rewrite Hcur in Hh).
  assert (side_inv g a (<[h:=(dist + 1)%Z]> mine)
            (queue ++ [(h, (dist + 1)%Z)]) [current]) as Hside1.
  { split_and!.
    - destruct (decide (h = a)) as [->|];
        [by rewrite lookup_insert_eq | by rewrite lookup_insert_ne].
    - intros x d. rewrite lookup_insert. case_decide as Hx.
      + intros [= <-]. subst x. exists (S n). split; [lia | done].
      + apply Hwalk.
    - intros x d [Hx|Hx%list_elem_of_singleton]%elem_of_app.
      + rewrite lookup_insert_ne; [by apply Hqueue|].
        intros ->. apply Hqueue in Hx. by rewrite Hh in Hx.
      + injection Hx as -> ->. by rewrite lookup_insert_eq.
    - intros x Hx Hq Hex k Hk.
      rewrite fmap_app, not_elem_of_app in Hq. destruct Hq as [Hq Hq'].
      simpl in Hq'. rewrite list_elem_of_singleton in Hq'.
      rewrite lookup_insert_ne in Hx by done.
      destruct (decide (h = k)) as [->|]; [by rewrite lookup_insert_eq|].
      rewrite lookup_insert_ne by done. by apply (Hclosed x). }
  assert (sides_apart (<[h:=(dist + 1)%Z]> mine) other) as Hapart1.
  { intros x. rewrite lookup_insert. case_decide as Hx; [by subst x|].
    apply Hapart. }
  assert (<[h:=(dist + 1)%Z]> mine !! current = Some dist) as Hcur1
    by by rewrite lookup_insert_ne.
  specialize (IH _ _ Hside1 Hcur1 Hnb' Hother Hapart1).
  destruct (expand_neighbors _ _ _ _ _) as [[mine' queue']|]; [|done].
  destruct IH as (Hside' & Hmono & Hin & Hapart').
  split_and!; [done | | | done].
  - intros x Hx. apply Hmono.
    destruct (decide (h = x)) as [->|];
      [by rewrite lookup_insert_eq | by rewrite lookup_insert_ne].
  - intros h' [->|?]%elem_of_cons; [|by apply Hin].
    apply Hmono. by rewrite lookup_insert_eq.
Qed.

Lemma expand_side_spec g a b mine other queue :
  side_inv g a mine queue [] →
  (∀ x d, other !! x = Some d →
     ∃ m : nat, d = Z.of_nat m ∧ walk (get_related_synsets g) m b x) →
  sides_apart mine other →
  match expand_side g mine other queue with
  | inl (mine', queue') =>
      side_inv g a mine' queue' [] ∧ sides_apart mine' other ∧
      (queue = [] → queue' = [])
  | inr r => meet_at g a b r
  end.
Proof.
  intros Hside Hother Hapart.
  destruct queue as [|[current dist] queue]; simpl; [done|].
  destruct Hside as (Hstart & Hwalk & Hqueue & Hclosed).
  assert (mine !! current = Some dist) as Hcur by (apply Hqueue; left).
  rewrite (Hapart current) by by rewrite Hcur.
  assert (side_inv g a mine queue [current]) as Hside.
  { split_and!; [done | done | |].
    - intros x d Hx. apply Hqueue. by right.
    - intros x Hx Hq Hex. apply (Hclosed x Hx); [|apply not_elem_of_nil].
      rewrite fmap_cons, not_elem_of_cons. split; [|done].
      intros ->. apply Hex. left. }
  pose proof (expand_neighbors_spec g a b current dist
    (get_hypernyms g current ++ get_hyponyms g current) mine other queue
    Hside Hcur (λ h Hh, Hh) Hother Hapart) as Hexp.
  destruct (expand_neighbors _ _ _ _ _) as [[mine' queue']|]; [|done].
  destruct Hexp as ((Hstart' & Hwalk' & Hqueue' & Hclosed') & Hmono & Hin & Hapart').
  split; [|done].
  split_and!; [done | done | done |].
  intros x Hx Hq _ h Hh.
  destruct (decide (x = current)) as [->|Hne]; [by apply Hin|].
  apply (Hclosed' x Hx Hq); [|done].
  by intros ->%list_elem_of_singleton.
Qed.

Lemma connected_recorded (g : RoWordNet) (start : str) (mine : gmap str Z) (x : str) :
  side_inv g start mine [] [] → connected g start x → is_Some (mine !! x).
Proof.
  intros (Hstart & _ & _ & Hclosed) [n Hn].
  apply elem_of_dom.
  apply (walk_closed (get_related_synsets g) (dom mine) start) with n;
    [by apply elem_of_dom | | done].
  intros y h Hy%elem_of_dom Hh. apply elem_of_dom.
  apply (Hclosed y Hy); [apply not_elem_of_nil | apply not_elem_of_nil | done].
Qed.

Lemma fsp_bfs_spec g a b :
  a ≠ b → ∃ r, fsp_bfs g a b = Some r ∧ fsp_post g a b r.
Proof.
  intros Hne. destruct (fsp_bfs_total g a b) as [r Hr].
  exists r. split; [done|]. unfold fsp_bfs in Hr.
  revert Hr. apply (while_loop_invariant (fsp_step g)
    (λ st : fsp_state,
       side_inv g a st.1.1.1 st.1.2 [] ∧ side_inv g b st.1.1.2 st.2 [] ∧
       sides_apart st.1.1.1 st.1.1.2)).
  - intros [[[visited1 visited2] queue1] queue2] (H1 & H2 & Hapart).
    cbn [fst snd] in *. unfold fsp_step.
    pose proof (expand_side_spec g a b visited1 visited2 queue1 H1
                  (proj1 (proj2 H2)) Hapart) as Hs1.
    destruct (expand_side g visited1 visited2 queue1)
      as [[visited1' queue1']|r1] eqn:E1.
    2: { destruct queue1; [done|]. by right. }
    destruct Hs1 as (H1' & Hapart' & Hempty1).
    assert (sides_apart visited2 visited1') as Hapart2.
    { intros x [d Hx]. destruct (visited1' !! x) as [d'|] eqn:Hx'; [|done].
      rewrite (Hapart' x) in Hx; [done | by rewrite Hx']. }
    pose proof (expand_side_spec g b a visited2 visited1' queue2 H2
                  (proj1 (proj2 H1')) Hapart2) as Hs2.
    destruct (expand_side g visited2 visited1' queue2)
      as [[visited2' queue2']|r2] eqn:E2.
    2: { assert (meet_at g a b r2) as Hmeet.
         { destruct Hs2 as (Hpos & x & n & m & Hn & Hm & ->).
           split; [done|]. exists x, m, n. split_and!; [done | done | lia]. }
         destruct queue1, queue2; [| by right..].
         simpl in E2. done. }
    destruct Hs2 as (H2' & Hapart2' & Hempty2).
    destruct queue1 as [|e1 queue1]; [destruct queue2 as [|e2 queue2]|].
    + left. split; [done|]. intros (x & Hxa & Hxb).
      pose proof (connected_recorded g a visited1 x H1 Hxa) as Ha.
      pose proof (connected_recorded g b visited2 x H2 Hxb) as Hb.
      rewrite (Hapart x Ha) in Hb. by destruct Hb.
    + cbn [fst snd]. split_and!; [done | done |].
      intros x [d Hx]. destruct (visited2' !! x) as [d'|] eqn:Hx'; [|done].
      rewrite (Hapart2' x) in Hx; [done | by rewrite Hx'].
    + cbn [fst snd]. split_and!; [done | done |].
      intros x [d Hx]. destruct (visited2' !! x) as [d'|] eqn:Hx'; [|done].
      rewrite (Hapart2' x) in Hx; [done | by rewrite Hx'].
  - cbn [fst snd].
    assert (∀ s, side_inv g s {[s := 0%Z]} [(s, 0%Z)] []) as Hinit.
    { intros s. split_and!.
      - by rewrite lookup_singleton_eq.
      - intros x d [-> <-]%lookup_singleton_Some. exists 0.
        split; [done | constructor].
      - intros x d [= -> ->]%list_elem_of_singleton.
        by rewrite lookup_singleton_eq.
      - intros x [d [-> _]%lookup_singleton_Some] Hq. destruct Hq. left. }
    split_and!; [apply Hinit | apply Hinit |].
    intros x [d [-> _]%lookup_singleton_Some]. by rewrite lookup_singleton_ne.
Qed.

Lemma find_shortest_path_length_post g a b :
  a ≠ b → fsp_post g a b (find_shortest_path_length g a b).
Proof.
  intros Hne. unfold find_shortest_path_length.
  destruct (decide (a = b)); [done|].
  by destruct (fsp_bfs_spec g a b Hne) as (r & -> & Hr).
Qed.

(** X5.  For two distinct synsets the search returns -1 exactly when no
    node is reached from both of them along hypernym and hyponym edges;
    otherwise it returns the length, at least 1, of a route that joins
    them through such a node. *)
Theorem shortest_path_length_is_a_route (g : RoWordNet) (a b : str) :
  a ≠ b →
  (find_shortest_path_length g a b = (-1)%Z ∧
   ¬ ∃ x, connected g a x ∧ connected g b x) ∨
  ((1 ≤ find_shortest_path_length g a b)%Z ∧
   ∃ x (n m : nat),
     walk (get_related_synsets g) n a x ∧
     walk (get_related_synsets g) m b x ∧
     find_shortest_path_length g a b = Z.of_nat (n + m)).
Proof.
  intros Hne. exact (find_shortest_path_length_post g a b Hne).
Qed.

Lemma shortest_path_length_is_a_route_witness :
  U "a" ≠ U "b" ∧
  (1 ≤ find_shortest_path_length diamond_graph (U "a") (U "b"))%Z ∧
  ∃ x, connected diamond_graph (U "a") x ∧ connected diamond_graph (U "b") x.
Proof.
  assert (U "a" ≠ U "b") as Hne by by vm_compute.
  split; [exact Hne|].
  destruct (shortest_path_length_is_a_route diamond_graph (U "a") (U "b") Hne)
    as [[Hr _]|[Hpos (x & n & m & Hn & Hm & _)]].
  - by vm_compute in Hr.
  - split; [exact Hpos|]. exists x. split; [by exists n | by exists m].
Defined.

(** X6.  Whether a path is found does not depend on the order of the two
    synsets: the search returns -1 for [(a, b)] exactly when it does for
    [(b, a)]. *)
Theorem no_path_is_symmetric (g : RoWordNet) (a b : str) :
  find_shortest_path_length g a b = (-1)%Z ↔
  find_shortest_path_length g b a = (-1)%Z.
Proof.
  destruct (decide (a = b)) as [->|Hne]; [done|].
  assert (∀ a b, a ≠ b →
            find_shortest_path_length g a b = (-1)%Z ↔
            ¬ ∃ x, connected g a x ∧ connected g b x) as Hiff.
  { clear. intros a b Hne.
    destruct (find_shortest_path_length_post g a b Hne)
      as [[Hr Hno]|[Hpos (x & n & m & Hn & Hm & _)]].
    - done.
    - split; [lia|]. intros Hno. destruct Hno.
      exists x. split; [by exists n | by exists m]. }
  rewrite (Hiff a b Hne), (Hiff b a) by done.
  split; intros Hno (x & ? & ?); apply Hno; by exists x.
Qed.

(** ** [find_lcs] *)

Lemma depth_pos g x : (1 ≤ depth g x)%Z.
Proof.
  unfold depth. by destruct (get_depth_bfs_spec g x) as (d & -> & ? & _).
Qed.

Lemma get_depth_depth L s :
  depth_cache_ok L → (get_depth s L).1 = depth (rwn L) s.
Proof. intros Hok. unfold depth. by rewrite (get_depth_value L s Hok). Qed.

Lemma get_depth_rwn L s : rwn (get_depth s L).2 = rwn L.
Proof. unfold get_depth. by destruct (_depth_cache L !! s). Qed.

Lemma deepest_of_depth_ok ids deepest max_depth L :
  depth_cache_ok L →
  depth_cache_ok (deepest_of ids deepest max_depth L).2 ∧
  rwn (deepest_of ids deepest max_depth L).2 = rwn L.
Proof.
  revert deepest max_depth L.
  induction ids as [|x ids IH]; intros deepest max_depth L Hok; simpl; [done|].
  unfold mbind, Run_bind.
  pose proof (get_depth_keeps_cache_ok L x Hok) as Hok1.
  pose proof (get_depth_rwn L x) as Hg.
  destruct (get_depth x L) as [d L1]; simpl in *.
  destruct (max_depth <? d)%Z; rewrite <- Hg; by apply IH.
Qed.

Lemma find_lcs_depth_ok a b L :
  depth_cache_ok L →
  depth_cache_ok (find_lcs a b L).2 ∧ rwn (find_lcs a b L).2 = rwn L.
Proof.
  intros Hok. unfold find_lcs.
  destruct (decide (a = b)); [done|].
  destruct (decide (common_ancestors (rwn L) a b = ∅)); [done|].
  by apply deepest_of_depth_ok.
Qed.

Lemma deepest_of_spec ids deepest max_depth L :
  depth_cache_ok L →
  ((deepest_of ids deepest max_depth L).1 = deepest ∧
   ∀ x, x ∈ ids → (depth (rwn L) x ≤ max_depth)%Z) ∨
  (∃ y, (deepest_of ids deepest max_depth L).1 = Some y ∧ y ∈ ids ∧
        (max_depth < depth (rwn L) y)%Z ∧
        ∀ x, x ∈ ids → (depth (rwn L) x ≤ depth (rwn L) y)%Z).
Proof.
  revert deepest max_depth L.
  induction ids as [|x ids IH]; intros deepest max_depth L Hok; simpl.
  { left. split; [done|]. intros x Hx. by apply elem_of_nil in Hx. }
  unfold mbind, Run_bind.
  pose proof (get_depth_keeps_cache_ok L x Hok) as Hok1.
  pose proof (get_depth_rwn L x) as Hg.
  pose proof (get_depth_depth L x Hok) as Hd.
  destruct (get_depth x L) as [d L1]; simpl in *. subst d.
  destruct (max_depth <? depth (rwn L) x)%Z eqn:Hlt.
  - apply Z.ltb_lt in Hlt.
    destruct (IH (Some x) (depth (rwn L) x) L1 Hok1)
      as [[Hr Hle]|(y & Hr & Hy & Hgt & Hle)]; rewrite Hg in *; right.
    + exists x. split_and!; [done | left | done |].
      intros x' [->|?]%elem_of_cons; [lia | by apply Hle].
    + exists y. split_and!; [done | by right | lia |].
      intros x' [->|?]%elem_of_cons; [lia | by apply Hle].
  - apply Z.ltb_ge in Hlt.
    destruct (IH deepest max_depth L1 Hok1)
      as [[Hr Hle]|(y & Hr & Hy & Hgt & Hle)]; rewrite Hg in *.
    + left. split; [done|].
      intros x' [->|?]%elem_of_cons; [lia | by apply Hle].
    + right. exists y. split_and!; [done | by right | lia |].
      intros x' [->|?]%elem_of_cons; [lia | by apply Hle].
Qed.

Lemma common_ancestors_spec g a b x :
  x ∈ common_ancestors g a b ↔ subsumes g x a ∧ subsumes g x b.
Proof.
  assert (∀ s, x ∈ ({[s]} ∪ _get_all_ancestors g s : gset str) ↔ subsumes g x s)
    as Hside.
  { intros s. unfold _get_all_ancestors, subsumes.
    destruct (ancestors_bfs_spec g s) as (A & -> & HA). simpl.
    rewrite elem_of_union, elem_of_singleton, HA. split.
    - intros [->|[n Hn]]; [exists 0; constructor | by exists (S n)].
    - intros [[|n] Hn]; [left; by apply hops_O_inv in Hn | right; by exists n]. }
  unfold common_ancestors. by rewrite elem_of_intersection, !Hside.
Qed.

Lemma find_lcs_spec L a b :
  depth_cache_ok L → a ≠ b →
  match (find_lcs a b L).1 with
  | None => ¬ ∃ x, subsumes (rwn L) x a ∧ subsumes (rwn L) x b
  | Some l => deepest_common_subsumer (rwn L) a b l
  end.
Proof.
  intros Hok Hne. unfold find_lcs.
  destruct (decide (a = b)); [done|].
  destruct (decide (common_ancestors (rwn L) a b = ∅)) as [Hempty|Hsome]; simpl.
  { intros (x & Hx). apply common_ancestors_spec in Hx.
    rewrite Hempty in Hx. by apply not_elem_of_empty in Hx. }
  destruct (deepest_of_spec (elements (common_ancestors (rwn L) a b)) None
              (-1)%Z L Hok) as [[_ Hle]|(y & -> & Hy & _ & Hle)].
  - apply set_choose_L in Hsome as [x Hx].
    specialize (Hle x). rewrite elem_of_elements in Hle.
    pose proof (depth_pos (rwn L) x). specialize (Hle Hx). lia.
  - apply elem_of_elements, common_ancestors_spec in Hy as [Hya Hyb].
    split_and!; [done | done |]. intros x Hxa Hxb. apply Hle.
    by apply elem_of_elements, common_ancestors_spec.
Qed.

(** X7.  With a depth cache that holds only computed depths: [find_lcs] of
    a synset with itself is that synset; for two distinct synsets it returns
    none exactly when nothing subsumes both, and otherwise a common subsumer
    (one of the two, or an ancestor of both) of greatest depth. *)
Theorem find_lcs_is_a_deepest_common_subsumer (L : RoWordNetLoader) (a b : str) :
  depth_cache_ok L →
  (find_lcs a a L).1 = Some a ∧
  (a ≠ b →
   ((find_lcs a b L).1 = None ↔
    ¬ ∃ x, subsumes (rwn L) x a ∧ subsumes (rwn L) x b) ∧
   (∀ l, (find_lcs a b L).1 = Some l →
         deepest_common_subsumer (rwn L) a b l)).
Proof.
  intros Hok. split.
  { unfold find_lcs. by destruct (decide (a = a)). }
  intros Hne. pose proof (find_lcs_spec L a b Hok Hne) as Hspec.
  destruct (find_lcs a b L).1 as [l|]; split.
  - split; [done|]. intros Hno. destruct Hno. exists l. by destruct Hspec as (? & ? & _).
  - by intros l' [= <-].
  - done.
  - done.
Qed.

Lemma find_lcs_is_a_deepest_common_subsumer_witness :
  depth_cache_ok (new_loader tree_graph) ∧ U "A1" ≠ U "B" ∧
  (find_lcs (U "A1") (U "B") (new_loader tree_graph)).1 = Some (U "R") ∧
  deepest_common_subsumer tree_graph (U "A1") (U "B") (U "R").
Proof.
  pose proof (proj1 (caches_ok_new_loader (λ q, q) tree_graph)) as Hok.
  assert (U "A1" ≠ U "B") as Hne by by vm_compute.
  assert ((find_lcs (U "A1") (U "B") (new_loader tree_graph)).1 = Some (U "R"))
    as Hl by by vm_compute.
  split; [exact Hok|]. split; [exact Hne|]. split; [exact Hl|].
  exact (proj2 (proj2 (find_lcs_is_a_deepest_common_subsumer
                         (new_loader tree_graph) (U "A1") (U "B") Hok) Hne)
           (U "R") Hl).
Defined.

(** ** The measures built on the search and on the subsumer *)

(** X8.  For two distinct synsets PATH lies between 0 and 1/2, and it is 0
    exactly when no node is reached from both synsets. *)
Theorem path_similarity_of_distinct_synsets
    (L : RoWordNetLoader) (a b : str) :
  a ≠ b →
  (0 <= (path_similarity a b L).1 <= 1 # 2)%Q ∧
  ((path_similarity a b L).1 = 0%Q ↔
   ¬ ∃ x, connected (rwn L) a x ∧ connected (rwn L) b x) ∧
  (path_similarity a b L).2 = L.
Proof.
  intros Hne. unfold path_similarity. destruct (decide (a = b)) as [|_]; [done|].
  destruct (find_shortest_path_length_post (rwn L) a b Hne)
    as [[-> Hno]|[Hpos (x & n & m & Hn & Hm & Hr)]]; simpl.
  { split_and!; done. }
  destruct (find_shortest_path_length (rwn L) a b <=? 0)%Z eqn:Hle;
    [apply Z.leb_le in Hle; lia|]. simpl.
  remember (find_shortest_path_length (rwn L) a b + 1)%Z as len eqn:Hlen.
  destruct len as [|p|p]; [lia| |lia].
  split_and!; [| | | done].
  - unfold Qle, Qdiv, Qmult, Qinv. simpl. lia.
  - unfold Qle, Qdiv, Qmult, Qinv. simpl. lia.
  - split; [done|]. intros Hno. destruct Hno.
    exists x. split; [by exists n | by exists m].
Qed.

Lemma path_similarity_of_distinct_synsets_witness :
  U "A1" ≠ U "B" ∧
  (0 <= (path_similarity (U "A1") (U "B") (new_loader tree_graph)).1 <= 1 # 2)%Q ∧
  (path_similarity (U "A1") (U "B") (new_loader tree_graph)).1 = (1 # 4)%Q.
Proof.
  assert (U "A1" ≠ U "B") as Hne by by vm_compute.
  split; [exact Hne|]. split; [|by vm_compute].
  exact (proj1 (path_similarity_of_distinct_synsets
                  (new_loader tree_graph) (U "A1") (U "B") Hne)).
Defined.

(** X9.  Two distinct synsets that nothing subsumes in common score 0.0
    under WUP, RES, JCN and LIN. *)
Theorem no_common_subsumer_scores_zero
    (ln : Q → Q) (L : RoWordNetLoader) (a b : str) :
  depth_cache_ok L → a ≠ b →
  (¬ ∃ x, subsumes (rwn L) x a ∧ subsumes (rwn L) x b) →
  (wup_similarity a b L).1 = 0%Q ∧
  (res_similarity ln a b L).1 = 0%Q ∧
  (jcn_similarity ln a b L).1 = 0%Q ∧
  (lin_similarity ln a b L).1 = 0%Q.
Proof.
  intros Hok Hne Hno.
  pose proof (find_lcs_spec L a b Hok Hne) as Hspec.
  unfold wup_similarity, res_similarity, jcn_similarity, lin_similarity.
  destruct (decide (a = b)); [done|].
  unfold mbind, Run_bind, mret, Run_ret.
  destruct (find_lcs a b L) as [[l|] L1]; simpl in *; [|done].
  destruct Hno. exists l. by destruct Hspec as (? & ? & _).
Qed.

Lemma no_common_subsumer_scores_zero_witness :
  depth_cache_ok (new_loader mixed_pos_graph) ∧ U "race-n" ≠ U "other" ∧
  (¬ ∃ x, subsumes mixed_pos_graph x (U "race-n") ∧
          subsumes mixed_pos_graph x (U "other")) ∧
  (wup_similarity (U "race-n") (U "other") (new_loader mixed_pos_graph)).1 = 0%Q.
Proof.
  pose proof (proj1 (caches_ok_new_loader (λ q, q) mixed_pos_graph)) as Hok.
  assert (U "race-n" ≠ U "other") as Hne by by vm_compute.
  assert (¬ ∃ x, subsumes (rwn (new_loader mixed_pos_graph)) x (U "race-n") ∧
                 subsumes (rwn (new_loader mixed_pos_graph)) x (U "other"))
    as Hno.
  { pose proof (find_lcs_spec (new_loader mixed_pos_graph) (U "race-n")
                  (U "other") Hok Hne) as Hspec.
    assert ((find_lcs (U "race-n") (U "other") (new_loader mixed_pos_graph)).1
            = None) as Hnone by by vm_compute.
    rewrite Hnone in Hspec. exact Hspec. }
  split; [exact Hok|]. split; [exact Hne|]. split; [exact Hno|].
  exact (proj1 (no_common_subsumer_scores_zero (λ q, q)
                  (new_loader mixed_pos_graph) (U "race-n") (U "other")
                  Hok Hne Hno)).
Defined.

Lemma wup_value L a b l :
  depth_cache_ok L → a ≠ b → deepest_common_subsumer (rwn L) a b l →
  (wup_similarity a b L).1 =
  (2 * inject_Z (depth (rwn L) l) /
   inject_Z (depth (rwn L) a + depth (rwn L) b))%Q.
Proof.
  intros Hok Hne (Hla & Hlb & Hmax).
  pose proof (find_lcs_spec L a b Hok Hne) as Hspec.
  pose proof (find_lcs_depth_ok a b L Hok) as [Hok1 Hg1].
  unfold wup_similarity. destruct (decide (a = b)) as [|_]; [done|].
  unfold mbind, Run_bind, mret, Run_ret.
  destruct (find_lcs a b L) as [[l0|] L1]; simpl in *.
  2: { destruct Hspec. by exists l. }
  destruct Hspec as (Hl0a & Hl0b & Hmax0).
  assert (depth (rwn L) l0 = depth (rwn L) l) as Heq.
  { apply Z.le_antisymm; [by apply Hmax | by apply Hmax0]. }
  pose proof (get_depth_depth L1 l0 Hok1) as Hd0.
  pose proof (get_depth_keeps_cache_ok L1 l0 Hok1) as Hok2.
  pose proof (get_depth_rwn L1 l0) as Hg2.
  destruct (get_depth l0 L1) as [d0 L2]; simpl in *.
  pose proof (get_depth_depth L2 a Hok2) as Hda.
  pose proof (get_depth_keeps_cache_ok L2 a Hok2) as Hok3.
  pose proof (get_depth_rwn L2 a) as Hg3.
  destruct (get_depth a L2) as [da L3]; simpl in *.
  pose proof (get_depth_depth L3 b Hok3) as Hdb.
  destruct (get_depth b L3) as [db L4]; simpl in *.
  rewrite Hg3, Hg2, Hg1 in Hdb. rewrite Hg2, Hg1 in Hda. rewrite Hg1 in Hd0.
  subst d0 da db.
  pose proof (depth_pos (rwn L) a). pose proof (depth_pos (rwn L) b).
  destruct (depth (rwn L) a + depth (rwn L) b =? 0)%Z eqn:Hz;
    [apply Z.eqb_eq in Hz; lia|].
  simpl. by rewrite Heq.
Qed.

(** X10.  With a depth cache that holds only computed depths, WUP does not
    depend on the order of the two synsets, whichever deepest common
    subsumer the search picks; for distinct synsets with a deepest common
    subsumer [l] it is 2·depth(l) / (depth(a) + depth(b)), a positive
    number. *)
Theorem wup_similarity_is_symmetric (L : RoWordNetLoader) (a b : str) :
  depth_cache_ok L →
  (wup_similarity a b L).1 = (wup_similarity b a L).1 ∧
  (∀ l, a ≠ b → deepest_common_subsumer (rwn L) a b l →
     (wup_similarity a b L).1 =
     (2 * inject_Z (depth (rwn L) l) /
      inject_Z (depth (rwn L) a + depth (rwn L) b))%Q ∧
     (0 < (wup_similarity a b L).1)%Q).
Proof.
  intros Hok. split.
  - destruct (decide (a = b)) as [->|Hne]; [done|].
    pose proof (find_lcs_spec L a b Hok Hne) as Hspec.
    destruct (find_lcs a b L).1 as [l|] eqn:Hl.
    + rewrite (wup_value L a b l Hok Hne Hspec).
      assert (deepest_common_subsumer (rwn L) b a l) as Hspec'.
      { destruct Hspec as (? & ? & Hmax). split_and!; [done | done |].
        intros x ? ?. by apply Hmax. }
      rewrite (wup_value L b a l Hok (not_eq_sym Hne) Hspec').
      by rewrite (Z.add_comm (depth (rwn L) b)).
    + assert (¬ ∃ x, subsumes (rwn L) x b ∧ subsumes (rwn L) x a) as Hno.
      { intros (x & ? & ?). apply Hspec. by exists x. }
      pose proof (find_lcs_spec L b a Hok (not_eq_sym Hne)) as Hspec'.
      unfold wup_similarity.
      destruct (decide (a = b)) as [|_]; [done|].
      destruct (decide (b = a)) as [|_]; [done|].
      unfold mbind, Run_bind, mret, Run_ret.
      destruct (find_lcs a b L) as [[l|] L1]; [done|].
      destruct (find_lcs b a L) as [[l|] L2]; simpl in *; [|done].
      destruct Hno. exists l. by destruct Hspec' as (? & ? & _).
  - intros l Hne Hl. rewrite (wup_value L a b l Hok Hne Hl). split; [done|].
    pose proof (depth_pos (rwn L) a). pose proof (depth_pos (rwn L) b).
    pose proof (depth_pos (rwn L) l).
    remember (depth (rwn L) a + depth (rwn L) b)%Z as den eqn:Hden.
    remember (depth (rwn L) l) as num eqn:Hnum.
    destruct den as [|p|p]; [lia| |lia]. destruct num as [|q|q]; [lia| |lia].
    unfold Qlt, Qdiv, Qmult, Qinv. simpl. lia.
Qed.

Lemma wup_similarity_is_symmetric_witness :
  depth_cache_ok (new_loader tree_graph) ∧ U "A1" ≠ U "B" ∧
  deepest_common_subsumer tree_graph (U "A1") (U "B") (U "R") ∧
  (wup_similarity (U "A1") (U "B") (new_loader tree_graph)).1 =
  (wup_similarity (U "B") (U "A1") (new_loader tree_graph)).1 ∧
  (0 < (wup_similarity (U "A1") (U "B") (new_loader tree_graph)).1)%Q.
Proof.
  pose proof (proj1 (caches_ok_new_loader (λ q, q) tree_graph)) as Hok.
  assert (U "A1" ≠ U "B") as Hne by by vm_compute.
  assert ((find_lcs (U "A1") (U "B") (new_loader tree_graph)).1 = Some (U "R"))
    as Hl by by vm_compute.
  pose proof (find_lcs_spec (new_loader tree_graph) (U "A1") (U "B") Hok Hne)
    as Hdeep.
  rewrite Hl in Hdeep.
  pose proof (wup_similarity_is_symmetric (new_loader tree_graph)
                (U "A1") (U "B") Hok) as [Hsym Hval].
  split; [exact Hok|]. split; [exact Hne|]. split; [exact Hdeep|].
  split; [exact Hsym|]. exact (proj2 (Hval (U "R") Hne Hdeep)).
Defined.

(** ** The HSO search *)

Lemma keep_best_ok g a b result best :
  hso_result_ok g a b result →
  (∀ r, best = Some r → hso_result_ok g a b r) →
  ∀ r, keep_best result best = Some r → hso_result_ok g a b r.
Proof.
  intros Hres Hbest r. unfold keep_best. destruct best as [r0|].
  - destruct (_score r0 <? _score result)%Z; intros [= <-]; [done | by apply Hbest].
  - by intros [= <-].
Qed.

Lemma try_neighbors_ok g a b dir current path_len dir_changes last_dir
    visited neighbors queue best :
  hso_state_ok g a (current, path_len, dir_changes, last_dir, visited) →
  (path_len ≤ MAX_PATH_LENGTH)%Z →
  (dir_changes ≤ MAX_DIRECTION_CHANGES)%Z →
  (∀ h, h ∈ neighbors → h ∈ get_related_synsets g current) →
  Forall (hso_state_ok g a) queue →
  (∀ r, best = Some r → hso_result_ok g a b r) →
  Forall (hso_state_ok g a)
    (try_neighbors b dir path_len dir_changes last_dir visited neighbors
       queue best).1 ∧
  (∀ r, (try_neighbors b dir path_len dir_changes last_dir visited neighbors
           queue best).2 = Some r → hso_result_ok g a b r).
Proof.
  intros (n & Hn & Hw & Hdc & Hlast) Hlen Hchg.
  revert queue best.
  induction neighbors as [|h rest IH]; intros queue best Hnb Hq Hbest; simpl;
    [done|].
  assert (∀ h', h' ∈ rest → h' ∈ get_related_synsets g current) as Hnb'
    by (intros; apply Hnb; by right).
  assert (walk (get_related_synsets g) (S n) a h) as Hwh.
  { eapply walk_snoc; [done|]. apply Hnb. left. }
  set (new_changes :=
         (dir_changes + (if decide (last_dir = Some (opposite dir)) then 1 else 0))%Z).
  assert (0 ≤ new_changes ≤ dir_changes + 1 ∧ new_changes < path_len + 1)%Z
    as [Hnc Hnc'].
  { subst new_changes. destruct (decide _) as [->|]; [lia|].
    destruct last_dir; lia. }
  destruct (decide (h = b)) as [->|Hhb].
  { apply IH; [done | done |]. apply keep_best_ok; [|done].
    exists (S n). simpl. unfold MAX_PATH_LENGTH, MAX_DIRECTION_CHANGES in *.
    split_and!; [lia | done | lia | lia | lia | lia | lia]. }
  destruct (decide (h ∈ visited)); [by apply IH|].
  apply IH; [done | | done].
  apply Forall_app. split; [done|]. constructor; [|constructor].
  exists (S n). split_and!; [lia | done | lia | lia].
Qed.

Lemma hso_bfs_spec g a b :
  ∃ best, hso_bfs g a b = Some best ∧
          ∀ r, best = Some r → hso_result_ok g a b r.
Proof.
  destruct (hso_bfs_total g a b) as [best Hbest].
  exists best. split; [done|]. unfold hso_bfs in Hbest. revert Hbest.
  apply (while_loop_invariant (hso_step g b)
    (λ st : list hso_state * option (Z * Z),
       Forall (hso_state_ok g a) st.1 ∧
       ∀ r, st.2 = Some r → hso_result_ok g a b r)
    (λ best, ∀ r, best = Some r → hso_result_ok g a b r)).
  - intros [queue best0] [Hq Hb]. cbn [fst snd] in *.
    destruct queue as [|[[[[current path_len] dir_changes] last_dir] visited] queue];
      [done|].
    cbn [hso_step]. apply Forall_cons in Hq as [Hst Hq].
    destruct (MAX_PATH_LENGTH <? path_len)%Z eqn:Hlen; [done|].
    destruct (MAX_DIRECTION_CHANGES <? dir_changes)%Z eqn:Hchg; [done|].
    apply Z.ltb_ge in Hlen, Hchg.
    pose proof (try_neighbors_ok g a b up current path_len dir_changes
      last_dir visited (get_hypernyms g current) queue best0 Hst Hlen Hchg)
      as Hup.
    destruct (try_neighbors b up _ _ _ _ _ _ _) as [queue1 best1].
    destruct Hup as [Hq1 Hb1]; [| done | done |].
    { intros h Hh. apply elem_of_app. by left. }
    pose proof (try_neighbors_ok g a b down current path_len dir_changes
      last_dir visited (get_hyponyms g current) queue1 best1 Hst Hlen Hchg)
      as Hdown.
    destruct (try_neighbors b down _ _ _ _ _ _ _) as [queue2 best2].
    apply Hdown; [| done | done].
    intros h Hh. apply elem_of_app. by right.
  - cbn [fst snd]. split; [|done].
    constructor; [|constructor]. exists 0.
    split_and!; [done | constructor | done | done | done].
Qed.

(** X11.  For two distinct synsets, a result of the constrained search has
    a path length between 1 and 9 that is the length of a connecting walk,
    and between 0 and 6 direction changes, fewer than the length.  So HSO
    is 16 on one synset and otherwise 0 or a value from 1 to 15: the score
    is never negative, and the clamp at 0 never changes it. *)
Theorem hso_result_bounds (g : RoWordNet) (L : RoWordNetLoader) (a b : str) :
  (hso_similarity a a L).1 = 16%Q ∧
  (a ≠ b →
   (∀ r, _find_path_with_directions g a b = Some r →
         hso_result_ok g a b r ∧ (1 ≤ _score r ≤ 15)%Z) ∧
   ((hso_similarity a b L).1 = 0%Q ∨
    ∃ z, (1 ≤ z ≤ 15)%Z ∧ (hso_similarity a b L).1 = inject_Z z)) ∧
  (hso_similarity a b L).2 = L.
Proof.
  assert (∀ g r, a ≠ b → _find_path_with_directions g a b = Some r →
            hso_result_ok g a b r ∧ (1 ≤ _score r ≤ 15)%Z) as Hres.
  { intros g' r Hne. unfold _find_path_with_directions.
    destruct (decide (a = b)) as [|_]; [done|].
    destruct (hso_bfs_spec g' a b) as (best & -> & Hbest). simpl.
    intros ->. specialize (Hbest r eq_refl). split; [done|].
    destruct Hbest as (n & _ & _ & ? & ? & ?).
    unfold _score, CONST_C, CONST_K, MAX_PATH_LENGTH, MAX_DIRECTION_CHANGES in *.
    lia. }
  split_and!.
  - unfold hso_similarity. by destruct (decide (a = a)).
  - intros Hne. split; [intros r; by apply Hres|].
    unfold hso_similarity. destruct (decide (a = b)) as [|_]; [done|].
    destruct (_find_path_with_directions (rwn L) a b) as [r|] eqn:Hr;
      [|by left].
    destruct (Hres (rwn L) r Hne Hr) as [_ Hscore]. right.
    exists (_score r). split; [done|]. simpl.
    destruct (0 <? _score r)%Z eqn:Hpos; [done|]. apply Z.ltb_ge in Hpos. lia.
  - unfold hso_similarity. destruct (decide (a = b)); [done|].
    by destruct (_find_path_with_directions (rwn L) a b).
Qed.

Lemma hso_result_bounds_witness :
  chain_name 0 ≠ chain_name 9 ∧
  hso_result_ok (chain_graph 9) (chain_name 0) (chain_name 9) (9, 0)%Z ∧
  (1 ≤ _score (9, 0)%Z ≤ 15)%Z.
Proof.
  assert (chain_name 0 ≠ chain_name 9) as Hne by by vm_compute.
  assert (_find_path_with_directions (chain_graph 9) (chain_name 0) (chain_name 9)
          = Some (9, 0)%Z) as Hr by by vm_compute.
  split; [exact Hne|].
  exact (proj1 (proj1 (proj2 (hso_result_bounds (chain_graph 9)
                         (new_loader (chain_graph 9))
                         (chain_name 0) (chain_name 9))) Hne) (9, 0)%Z Hr).
Defined.

(** ** Maximum and best pair *)

Lemma Qltb_lt a b : Qltb a b = true ↔ (a < b)%Q.
Proof.
  unfold Qltb. rewrite negb_true_iff. split.
  - intros Hle. apply Qnot_le_lt. intros H%Qle_bool_iff. congruence.
  - intros Hlt. destruct (Qle_bool b a) eqn:Hle; [|done].
    apply Qle_bool_iff in Hle. by apply Qlt_not_le in Hlt.
Qed.

Lemma Qltb_ge a b : Qltb a b = false ↔ (b <= a)%Q.
Proof.
  unfold Qltb. rewrite negb_false_iff. apply Qle_bool_iff.
Qed.

Lemma py_max_spec {A : Type} (key : A → Q) (x : A) (xs : list A) :
  py_max key x xs ∈ x :: xs ∧
  ∀ y, y ∈ x :: xs → (key y <= key (py_max key x xs))%Q.
Proof.
  revert x. induction xs as [|z xs IH]; intros x.
  { split; [left|]. intros y ->%list_elem_of_singleton. apply Qle_refl. }
  change (py_max key x (z :: xs))
    with (py_max key (if Qltb (key x) (key z) then z else x) xs).
  destruct (Qltb (key x) (key z)) eqn:Hlt.
  - apply Qltb_lt in Hlt. destruct (IH z) as [Hin Hmax].
    split; [by right|].
    intros y [->|Hy]%elem_of_cons; [|by apply Hmax].
    apply Qlt_le_weak. eapply Qlt_le_trans; [exact Hlt|]. apply Hmax. left.
  - apply Qltb_ge in Hlt. destruct (IH x) as [Hin Hmax].
    split.
    { apply elem_of_cons in Hin as [->|?]; [left | right; by right]. }
    intros y [->|[->|Hy]%elem_of_cons]%elem_of_cons.
    + apply Hmax. left.
    + eapply Qle_trans; [exact Hlt|]. apply Hmax. left.
    + apply Hmax. by right.
Qed.

Lemma py_max_key {A : Type} (key : A → Q) (x : A) (xs : list A) :
  key (py_max key x xs) = py_max id (key x) (key <$> xs).
Proof.
  revert x. induction xs as [|z xs IH]; intros x; [done|].
  change (py_max key x (z :: xs))
    with (py_max key (if Qltb (key x) (key z) then z else x) xs).
  change (py_max id (key x) (key <$> z :: xs))
    with (py_max id (if Qltb (key x) (key z) then key z else key x) (key <$> xs)).
  rewrite IH. by destruct (Qltb (key x) (key z)).
Qed.

(** X12.  When some pair was scored, the best-pair helper returns one of
    the scored triples, no scored pair has a higher score, and the
    max-similarity helper returns that triple's score; both helpers leave
    the loader as the scoring left it. *)
Theorem best_pair_has_the_maximal_score
    (alg : BaseSimilarity) (L : RoWordNetLoader) (word1 word2 : str) :
  (calculate_word_similarity alg word1 word2 L).1 ≠ [] →
  ∃ best,
    get_best_pair alg word1 word2 L =
      (Some best, (calculate_word_similarity alg word1 word2 L).2) ∧
    get_max_similarity alg word1 word2 L =
      (best.2, (calculate_word_similarity alg word1 word2 L).2) ∧
    best ∈ (calculate_word_similarity alg word1 word2 L).1 ∧
    ∀ r, r ∈ (calculate_word_similarity alg word1 word2 L).1 →
         (r.2 <= best.2)%Q.
Proof.
  intros Hne. unfold get_best_pair, get_max_similarity, mbind, Run_bind.
  destruct (calculate_word_similarity alg word1 word2 L) as [[|r rs] L1];
    [done|]. simpl.
  exists (py_max snd r rs). split_and!.
  - done.
  - by rewrite (py_max_key snd r rs).
  - apply py_max_spec.
  - apply py_max_spec.
Qed.

Lemma best_pair_has_the_maximal_score_witness :
  (calculate_word_similarity PathSimilarity (U "A1") (U "B")
     (new_loader tree_graph)).1 ≠ [] ∧
  ∃ best,
    get_best_pair PathSimilarity (U "A1") (U "B") (new_loader tree_graph) =
      (Some best, (calculate_word_similarity PathSimilarity (U "A1") (U "B")
                     (new_loader tree_graph)).2) ∧
    get_max_similarity PathSimilarity (U "A1") (U "B") (new_loader tree_graph) =
      (best.2, (calculate_word_similarity PathSimilarity (U "A1") (U "B")
                  (new_loader tree_graph)).2) ∧
    best ∈ (calculate_word_similarity PathSimilarity (U "A1") (U "B")
              (new_loader tree_graph)).1 ∧
    ∀ r, r ∈ (calculate_word_similarity PathSimilarity (U "A1") (U "B")
                (new_loader tree_graph)).1 → (r.2 <= best.2)%Q.
Proof.
  assert ((calculate_word_similarity PathSimilarity (U "A1") (U "B")
             (new_loader tree_graph)).1 ≠ []) as Hne by by vm_compute.
  split; [exact Hne|].
  exact (best_pair_has_the_maximal_score PathSimilarity
           (new_loader tree_graph) (U "A1") (U "B") Hne).
Defined.

(** ** The index built at load time *)

Lemma synset_Some g id s :
  synset g id = Some s → s ∈ rwn_synsets g ∧ syn_id s = id.
Proof.
  unfold synset. intros Hf. apply find_some in Hf as [Hin Hid].
  split; [by apply list_elem_of_In | by apply bool_decide_eq_true in Hid].
Qed.

Lemma synset_None g id : synset g id = None → id ∉ synsets g.
Proof.
  unfold synset, synsets. intros Hf (s & -> & Hs)%list_elem_of_fmap.
  apply list_elem_of_In in Hs.
  pose proof (find_none _ _ Hf s Hs) as Hno. simpl in Hno.
  by rewrite bool_decide_eq_false in Hno.
Qed.

Lemma index_literals_spec synset_id literals w2s word id :
  id ∈ default [] (foldl (index_literal synset_id) w2s literals !! word) ↔
  id ∈ default [] (w2s !! word) ∨
  (id = synset_id ∧ word ∈ lower <$> literals).
Proof.
  revert w2s. induction literals as [|lit rest IH]; intros w2s; simpl.
  { split; [by left|]. intros [?|[_ H%elem_of_nil]]; done. }
  rewrite IH. unfold index_literal. rewrite lookup_insert.
  rewrite elem_of_cons. case_decide as Hw.
  - subst word. simpl. rewrite elem_of_app, list_elem_of_singleton. tauto.
  - assert (word ≠ lower lit) by done. tauto.
Qed.

Lemma index_synset_words g acc i word id :
  id ∈ default [] ((index_synset g acc i).1 !! word) ↔
  id ∈ default [] (acc.1 !! word) ∨
  (id = i ∧ ∃ s, synset g id = Some s ∧ word ∈ lower <$> syn_literals s).
Proof.
  unfold index_synset. destruct (synset g i) as [s|] eqn:Hi; simpl.
  - rewrite index_literals_spec. split.
    + intros [?|[-> ?]]; [by left | right]. split; [done|]. by exists s.
    + intros [?|[-> (s' & Hs' & ?)]]; [by left | right]. split; [done|].
      rewrite Hi in Hs'. by injection Hs' as ->.
  - split; [by left|]. intros [?|[-> (s' & Hs' & ?)]]; [done|].
    by rewrite Hi in Hs'.
Qed.

Lemma build_index_words g ids acc word id :
  id ∈ default [] ((foldl (index_synset g) acc ids).1 !! word) ↔
  id ∈ default [] (acc.1 !! word) ∨
  (id ∈ ids ∧ ∃ s, synset g id = Some s ∧ word ∈ lower <$> syn_literals s).
Proof.
  revert acc. induction ids as [|i ids IH]; intros acc; simpl.
  { split; [by left|]. intros [?|[H%elem_of_nil _]]; done. }
  rewrite IH, index_synset_words, elem_of_cons. tauto.
Qed.

Lemma build_index_cache_hit g ids acc id s :
  id ∈ ids → synset g id = Some s →
  (foldl (index_synset g) acc ids).2 !! id = Some s.
Proof.
  intros Hin Hs. revert acc Hin.
  induction ids as [|i ids IH]; intros acc Hin; [by apply elem_of_nil in Hin|].
  simpl. destruct (decide (id ∈ ids)) as [Hin'|Hout]; [by apply IH|].
  apply elem_of_cons in Hin as [->|?]; [|done].
  clear IH. revert acc. induction ids as [|j ids IH]; intros acc.
  - simpl. unfold index_synset. rewrite Hs. simpl. apply lookup_insert_eq.
  - apply not_elem_of_cons in Hout as [Hne Hout]. simpl.
    specialize (IH Hout).
    assert (∀ acc', acc'.2 !! i = Some s →
              (foldl (index_synset g) acc' ids).2 !! i = Some s) as Hkeep.
    { clear -Hout. intros acc'. revert acc'.
      induction ids as [|k ids IH]; intros acc' Hacc; [done|].
      apply not_elem_of_cons in Hout as [Hne Hout]. simpl. apply IH; [done|].
      unfold index_synset. destruct (synset g k); [|done]. simpl.
      by rewrite lookup_insert_ne. }
    apply Hkeep. unfold index_synset at 1.
    destruct (synset g j); simpl.
    + rewrite lookup_insert_ne by done. unfold index_synset. rewrite Hs.
      apply lookup_insert_eq.
    + unfold index_synset. rewrite Hs. apply lookup_insert_eq.
Qed.

Lemma build_index_cache_miss g ids acc id :
  id ∉ ids ∨ synset g id = None →
  (foldl (index_synset g) acc ids).2 !! id = acc.2 !! id.
Proof.
  intros Hid. revert acc.
  induction ids as [|i ids IH]; intros acc; [done|]. simpl.
  rewrite IH.
  - unfold index_synset. destruct (synset g i) as [s|] eqn:Hi; [|done].
    simpl. apply lookup_insert_ne. intros ->.
    destruct Hid as [Hid|Hid]; [|congruence]. apply Hid. left.
  - destruct Hid as [Hid|Hid]; [left|by right].
    intros ?. apply Hid. by right.
Qed.

Lemma synset_in_synsets g id s : synset g id = Some s → id ∈ synsets g.
Proof.
  intros [Hin <-]%synset_Some. unfold synsets. by apply list_elem_of_fmap_2.
Qed.

Lemma index_ok_cache L id :
  index_ok L → synset_cache L !! id = synset (rwn L) id.
Proof.
  intros [_ ->]. unfold _build_word_index.
  destruct (synset (rwn L) id) as [s|] eqn:Hs.
  - apply build_index_cache_hit; [by eapply synset_in_synsets | done].
  - rewrite build_index_cache_miss by by right. apply lookup_empty.
Qed.

Lemma index_ok_new_loader g : index_ok (new_loader g).
Proof. done. Qed.

Lemma index_ok_frame L L' : frame L L' → index_ok L → index_ok L'.
Proof.
  intros (Hg & Hc & _ & Hw) [Hw' Hc']. unfold index_ok.
  rewrite Hg, Hc, Hw. done.
Qed.

(** X13.  On a loader whose synset table is the one built at load time,
    [get_synset] returns what the resource holds under the identifier, or
    none for an unknown identifier, and never writes to the loader. *)
Theorem get_synset_reads_the_resource (L : RoWordNetLoader) (synset_id : str) :
  index_ok L → get_synset synset_id L = (synset (rwn L) synset_id, L).
Proof.
  intros Hok. unfold get_synset. rewrite (index_ok_cache L synset_id Hok).
  by destruct (synset (rwn L) synset_id).
Qed.

Lemma get_synset_reads_the_resource_witness :
  index_ok (new_loader tree_graph) ∧
  get_synset (U "A") (new_loader tree_graph)
  = (Some (noun "A"), new_loader tree_graph) ∧
  get_synset (U "Z") (new_loader tree_graph) = (None, new_loader tree_graph).
Proof.
  pose proof (index_ok_new_loader tree_graph) as Hok.
  split; [exact Hok|].
  rewrite !(get_synset_reads_the_resource (new_loader tree_graph) _ Hok).
  split; by vm_compute.
Defined.

(** X14.  On such a loader, the candidates of a word are exactly the synsets
    that the resource holds under their own identifier and one of whose
    literals equals the word once both are lowercased; an unknown word has
    no candidates. *)
Theorem word_candidates_are_the_synsets_with_the_literal
    (L : RoWordNetLoader) (word : str) (s : Synset) :
  index_ok L →
  s ∈ get_synsets_for_word L word ↔
  synset (rwn L) (syn_id s) = Some s ∧ lower word ∈ lower <$> syn_literals s.
Proof.
  intros Hok. unfold get_synsets_for_word.
  rewrite list_elem_of_omap. split.
  - intros (id & Hid & Hs).
    rewrite (index_ok_cache L id Hok) in Hs.
    destruct Hok as [Hw _]. rewrite Hw in Hid. unfold _build_word_index in Hid.
    apply build_index_words in Hid as [Hid|(Hin & s' & Hs' & Hlit)].
    { simpl in Hid. rewrite lookup_empty in Hid. by apply elem_of_nil in Hid. }
    rewrite Hs in Hs'. injection Hs' as <-.
    by destruct (synset_Some _ _ _ Hs) as [_ ->].
  - intros [Hs Hlit]. exists (syn_id s). split.
    + destruct Hok as [Hw _]. rewrite Hw. unfold _build_word_index.
      apply build_index_words. right.
      split; [by eapply synset_in_synsets | by exists s].
    + by rewrite (index_ok_cache L _ Hok).
Qed.

Lemma word_candidates_are_the_synsets_with_the_literal_witness :
  index_ok (new_loader mixed_pos_graph) ∧
  run_v ∈ get_synsets_for_word (new_loader mixed_pos_graph) (U "ALERGA").
Proof.
  pose proof (index_ok_new_loader mixed_pos_graph) as Hok.
  split; [exact Hok|].
  apply (word_candidates_are_the_synsets_with_the_literal
           (new_loader mixed_pos_graph) (U "ALERGA") run_v Hok).
  split; [by vm_compute|]. apply list_elem_of_fmap.
  exists (U "alerga"). split; [by vm_compute | left].
Defined.

(** X15.  Whatever the resource gives as part-of-speech, [get_synset_pos]
    returns one of the four letters n, v, a, r. *)
Theorem get_synset_pos_is_one_of_four (s : Synset) :
  get_synset_pos s ∈ [U "n"; U "v"; U "a"; U "r"].
Proof.
  assert (∀ k p, pos_map k = Some p → p ∈ [U "n"; U "v"; U "a"; U "r"]) as Hmap.
  { intros k p. unfold pos_map. destruct k as [t|z|t].
    - repeat (destruct (_ || _ || _); [intros [= <-]; set_solver|]). done.
    - repeat (destruct (_ =? _)%Z; [intros [= <-]; set_solver|]). done.
    - done. }
  unfold get_synset_pos.
  destruct (pos_map (syn_pos s)) as [p|] eqn:Hp; cbn [default];
    [exact (Hmap _ _ Hp)|].
  destruct (pos_map (PosStr (pos_str (syn_pos s)))) as [p|] eqn:Hp';
    cbn [default]; [exact (Hmap _ _ Hp') | left].
Qed.

(** ** The LESK tokenizer and glosses *)

Lemma lower_cp_no_upper c d : d ∈ lower_cp c → in_range 65 90 d = false.
Proof.
  unfold lower_cp, in_range.
  repeat match goal with
  | |- context [if ?b then _ else _] => destruct b eqn:?
  end;
  rewrite ?elem_of_cons; intros Hd;
  repeat match goal with
  | H : _ ∨ _ |- _ => destruct H
  | H : _ ∈ [] |- _ => by apply elem_of_nil in H
  end; subst;
  apply andb_false_iff; rewrite !N.leb_gt;
  repeat match goal with
  | H : (_ && _) = true |- _ => apply andb_true_iff in H as [? ?]
  | H : (_ || _) = true |- _ => apply orb_true_iff in H as [?|?]
  | H : (_ && _) = false |- _ => apply andb_false_iff in H as [?|?]
  | H : (_ <=? _)%N = true |- _ => apply N.leb_le in H
  | H : (_ <=? _)%N = false |- _ => apply N.leb_gt in H
  | H : (_ =? _)%N = true |- _ => apply N.eqb_eq in H
  end; lia.
Qed.

Lemma lower_no_upper text d : d ∈ lower text → in_range 65 90 d = false.
Proof.
  unfold lower. intros (c & Hd & _)%list_elem_of_bind.
  by eapply lower_cp_no_upper.
Qed.

Lemma class_run_take (k : nat) (text : str) :
  k ≤ class_run text → Forall (λ c, regex_class c = true) (take k text).
Proof.
  revert k. induction text as [|c rest IH]; intros k Hk.
  { rewrite take_nil. constructor. }
  destruct k as [|k]; [constructor|]. simpl in *.
  destruct (regex_class c) eqn:Hc; [|lia].
  constructor; [done|]. apply IH. lia.
Qed.

Lemma match_end_take (n : nat) (text w : str) :
  match_end n text = Some w → ∃ k, 0 < k ≤ n ∧ w = take k text.
Proof.
  induction n as [|n IH]; [done|]. simpl.
  destruct (word_boundary (text !! n) (text !! S n)).
  - intros [= <-]. exists (S n). split; [lia | done].
  - intros (k & Hk & ->)%IH. exists k. split; [lia | done].
Qed.

Lemma findall_from_infix (before : option N) (inside : nat) (text w : str) :
  w ∈ findall_from before inside text →
  (∃ pre post, text = pre ++ w ++ post) ∧
  w ≠ [] ∧ Forall (λ c, regex_class c = true) w.
Proof.
  revert before inside.
  induction text as [|c rest IH]; intros before inside Hw;
    [by apply elem_of_nil in Hw|].
  assert (∀ b i, w ∈ findall_from b i rest →
            (∃ pre post, c :: rest = pre ++ w ++ post) ∧
            w ≠ [] ∧ Forall (λ c, regex_class c = true) w) as Hrest.
  { intros b i Hin. destruct (IH b i Hin) as ((pre & post & ->) & ? & ?).
    split; [|done]. by exists (c :: pre), post. }
  simpl in Hw. destruct inside as [|k]; [|by eapply Hrest].
  destruct (match_at before (c :: rest)) as [w0|] eqn:Hm; [|by eapply Hrest].
  apply elem_of_cons in Hw as [->|Hw]; [|by eapply Hrest].
  unfold match_at in Hm.
  destruct (word_boundary before (head (c :: rest))); [|done].
  apply match_end_take in Hm as (k & [Hpos Hk] & ->).
  split_and!.
  - exists [], (drop k (c :: rest)). simpl app. by rewrite take_drop.
  - destruct k; [lia | done].
  - by apply class_run_take.
Qed.

(** X16.  Every token that [_tokenize] returns is a contiguous piece of the
    lowercased text, has at least three characters, is not a stop word, and
    consists only of lowercase ASCII letters and code points of Latin
    Extended-A. *)
Theorem tokens_are_long_lowercase_pieces_of_the_text (text w : str) :
  w ∈ _tokenize text →
  (∃ pre post, lower text = pre ++ w ++ post) ∧
  3 ≤ length w ∧ w ∉ STOP_WORDS ∧
  Forall (λ c, token_char c = true) w.
Proof.
  unfold _tokenize. destruct text as [|c0 text0]; [set_solver|].
  set (text := c0 :: text0).
  rewrite elem_of_list_to_set, list_elem_of_filter.
  intros [[Hstop Hlen] Hw]. unfold findall_words in Hw.
  apply findall_from_infix in Hw as ((pre & post & Htext) & _ & Hclass).
  split_and!; [by exists pre, post | lia | done |].
  apply Forall_forall. intros c Hc.
  assert (in_range 65 90 c = false) as Hup.
  { apply (lower_no_upper text). rewrite Htext.
    rewrite !elem_of_app. right. by left. }
  rewrite Forall_forall in Hclass. specialize (Hclass c Hc).
  unfold regex_class in Hclass. unfold token_char.
  rewrite Hup, orb_false_r in Hclass. done.
Qed.

Lemma tokens_are_long_lowercase_pieces_of_the_text_witness :
  U "dog" ∈ _tokenize (U "The DOG barks") ∧
  (∃ pre post, lower (U "The DOG barks") = pre ++ U "dog" ++ post) ∧
  3 ≤ length (U "dog") ∧ U "dog" ∉ STOP_WORDS ∧
  Forall (λ c, token_char c = true) (U "dog").
Proof.
  assert (U "dog" ∈ _tokenize (U "The DOG barks")) as Hin by by vm_compute.
  split; [exact Hin|].
  exact (tokens_are_long_lowercase_pieces_of_the_text _ _ Hin).
Defined.









(** ** Choosing synsets from a request *)

Lemma with_pos_subseteq pos synsets : with_pos pos synsets ⊆ synsets.
Proof. intros s. unfold with_pos. rewrite list_elem_of_filter. tauto. Qed.

Lemma with_pos_pos pos synsets s :
  s ∈ with_pos pos synsets → Some (get_synset_pos s) = pos.
Proof. unfold with_pos. rewrite list_elem_of_filter. tauto. Qed.

(** X18.  [get_synset_by_spec] answers (None, None) exactly when the word
    has no candidate left after the part-of-speech filter.  Otherwise it
    returns a candidate of the word together with its identifier, of the
    requested part of speech when one was given: the candidate numbered by
    the sense when that number is in range, and the first candidate when
    the sense is missing, zero or out of range. *)
Theorem get_synset_by_spec_selects_a_candidate
    (L : RoWordNetLoader) (word : str) (pos : option str) (sense : option Z) :
  let candidates :=
    if str_truthy pos then with_pos pos (get_synsets_for_word L word)
    else get_synsets_for_word L word in
  (get_synset_by_spec L word pos sense = (None, None) ↔ candidates = []) ∧
  (∀ s r, get_synset_by_spec L word pos sense = (Some s, r) →
     r = Some (syn_id s) ∧ s ∈ get_synsets_for_word L word ∧
     (str_truthy pos = true → Some (get_synset_pos s) = pos)) ∧
  (∀ k : nat, sense = Some (Z.of_nat (S k)) → k < length candidates →
     (get_synset_by_spec L word pos sense).1 = candidates !! k) ∧
  (sense_in_range sense candidates = false →
     (get_synset_by_spec L word pos sense).1 = head candidates).
Proof.
  intros candidates.
  assert (get_synset_by_spec L word pos sense =
          match candidates with
          | [] => (None, None)
          | first :: _ =>
              let synset :=
                if sense_in_range sense candidates
                then default first (nth_sense sense candidates)
                else first in
              (Some synset, Some (syn_id synset))
          end) as ->.
  { unfold get_synset_by_spec, candidates.
    destruct (get_synsets_for_word L word); [|done].
    by destruct (str_truthy pos). }
  assert (candidates ⊆ get_synsets_for_word L word) as Hsub.
  { unfold candidates. destruct (str_truthy pos); [apply with_pos_subseteq|done]. }
  assert (∀ s, str_truthy pos = true → s ∈ candidates →
            Some (get_synset_pos s) = pos) as Hpos.
  { unfold candidates. intros s ->. apply with_pos_pos. }
  clearbody candidates.
  destruct candidates as [|first rest].
  { split_and!; try done; intros k _ Hk; simpl in Hk; lia. }
  set (candidates := first :: rest) in *.
  assert (∀ k : nat, sense = Some (Z.of_nat (S k)) → k < length candidates →
            sense_in_range sense candidates = true ∧
            nth_sense sense candidates = candidates !! k) as Hrange.
  { intros k -> Hk. split.
    - unfold sense_in_range, truthy.
      apply andb_true_iff. split; [apply negb_true_iff, Z.eqb_neq; lia|].
      apply andb_true_iff. split; apply Z.leb_le; lia.
    - unfold nth_sense. simpl default. f_equal. lia. }
  split_and!.
  - done.
  - intros s r [= <- <-].
    destruct (sense_in_range sense candidates) eqn:Hin.
    + destruct (nth_sense sense candidates) as [s|] eqn:Hnth; simpl.
      * assert (s ∈ candidates) as Hs by by eapply list_elem_of_lookup_2.
        split_and!; [done | by apply Hsub | intros Ht; by apply Hpos].
      * split_and!; [done | apply Hsub; left | intros Ht; apply Hpos; [done|left]].
    + split_and!; [done | apply Hsub; left | intros Ht; apply Hpos; [done|left]].
  - intros k Hk Hlen. destruct (Hrange k Hk Hlen) as [-> ->]. simpl fst.
    destruct (candidates !! k) as [s|] eqn:Hs; [done|].
    apply lookup_ge_None in Hs. lia.
  - intros ->. done.
Qed.

Lemma get_synset_by_spec_selects_a_candidate_witness :
  sense_in_range (Some 7%Z)
    (with_pos (Some (U "a"))
       (get_synsets_for_word (new_loader homonym_graph) (U "mare"))) = false ∧
  (get_synset_by_spec (new_loader homonym_graph) (U "mare") (Some (U "a"))
     (Some 7%Z)).1 = Some big_a.
Proof.
  assert (sense_in_range (Some 7%Z)
    (with_pos (Some (U "a"))
       (get_synsets_for_word (new_loader homonym_graph) (U "mare"))) = false)
    as Hout by by vm_compute.
  split; [exact Hout|].
  rewrite (proj2 (proj2 (proj2 (get_synset_by_spec_selects_a_candidate
             (new_loader homonym_graph) (U "mare") (Some (U "a")) (Some 7%Z))))
             Hout).
  by vm_compute.
Defined.

(** ** The similarity endpoint *)

Lemma select_sense_subseteq sense synsets :
  select_sense sense synsets ⊆ synsets.
Proof.
  unfold select_sense. destruct (sense_in_range sense synsets); [|done].
  destruct (nth_sense sense synsets) as [s|] eqn:Hs; [|done].
  intros x ->%list_elem_of_singleton. by eapply list_elem_of_lookup_2.
Qed.

Lemma select_sense_nonempty sense synsets :
  synsets ≠ [] → select_sense sense synsets ≠ [].
Proof.
  unfold select_sense. destruct (sense_in_range sense synsets); [|done].
  by destruct (nth_sense sense synsets).
Qed.

Lemma similarity_result_algorithm round6 synsets1 synsets2 sense1 sense2
    word1 word2 entry L :
  algorithm (similarity_result round6 synsets1 synsets2 sense1 sense2
               word1 word2 entry L).1 = upper entry.1.
Proof.
  assert (∀ name alg, algorithm (best_pair_result round6 name alg word1 word2 L).1
                      = upper name) as Hbest.
  { intros name alg. unfold best_pair_result, mbind, Run_bind, mret, Run_ret.
    destruct (get_best_pair alg word1 word2 L) as [[[[? ?] ?]|] ?]; done. }
  assert (∀ name alg s1 s2,
            algorithm (selected_pair_result round6 name alg s1 s2 L).1
            = upper name) as Hsel.
  { intros name alg s1 s2.
    unfold selected_pair_result, mbind, Run_bind, mret, Run_ret.
    case_decide; [|done].
    by destruct (calculate_synset_similarity _ _ L). }
  destruct entry as [name alg]. unfold similarity_result.
  destruct synsets1 as [|s1 [|]]; try apply Hbest.
  destruct synsets2 as [|s2 [|]]; try apply Hbest.
  destruct (truthy sense1 || truthy sense2); [apply Hsel | apply Hbest].
Qed.

Lemma similarity_results_algorithms round6 synsets1 synsets2 sense1 sense2
    word1 word2 entries L :
  algorithm <$> (similarity_results round6 synsets1 synsets2 sense1 sense2
                   word1 word2 entries L).1 = (λ e, upper e.1) <$> entries.
Proof.
  revert L. induction entries as [|entry rest IH]; intros L; [done|].
  simpl. unfold mbind, Run_bind, mret, Run_ret.
  pose proof (similarity_result_algorithm round6 synsets1 synsets2 sense1
                sense2 word1 word2 entry L) as Hr.
  destruct (similarity_result round6 synsets1 synsets2 sense1 sense2 word1
              word2 entry L) as [r L1].
  specialize (IH L1).
  destruct (similarity_results round6 synsets1 synsets2 sense1 sense2 word1
              word2 rest L1) as [rs L2].
  cbn [fst] in *. rewrite !fmap_cons. by f_equal.
Qed.

Lemma similarity_results_without_sense round6 synsets1 synsets2 synsets1'
    synsets2' sense1 sense2 sense1' sense2' word1 word2 entries L :
  truthy sense1 = false → truthy sense2 = false →
  truthy sense1' = false → truthy sense2' = false →
  similarity_results round6 synsets1 synsets2 sense1 sense2 word1 word2
    entries L =
  similarity_results round6 synsets1' synsets2' sense1' sense2' word1 word2
    entries L.
Proof.
  intros H1 H2 H1' H2'.
  assert (∀ S1 S2 s1 s2 entry L0,
            truthy s1 = false → truthy s2 = false →
            similarity_result round6 S1 S2 s1 s2 word1 word2 entry L0
            = best_pair_result round6 entry.1 entry.2 word1 word2 L0) as Hbest.
  { intros S1 S2 s1 s2 [name alg] L0 Hs1 Hs2. unfold similarity_result.
    rewrite Hs1, Hs2.
    destruct S1 as [|? [|]]; try done. by destruct S2 as [|? [|]]. }
  revert L. induction entries as [|entry rest IH]; intros L; [done|].
  simpl. unfold mbind, Run_bind.
  rewrite (Hbest synsets1 synsets2 sense1 sense2) by done.
  rewrite (Hbest synsets1' synsets2' sense1' sense2') by done.
  destruct (best_pair_result round6 entry.1 entry.2 word1 word2 L) as [r L1].
  by rewrite IH.
Qed.

(** X19.  The similarity endpoint refuses a request exactly when one of the
    words has no candidate left after its part-of-speech filter, and then
    no measure has run: the loader is as before.  An accepted request gets
    one result per measure, named PATH, WUP, LCH, RES, JCN, LIN, LESK, HSO
    in this order, and the synsets it describes are non-empty selections
    of the filtered candidates. *)
Theorem similarity_endpoint_answers
    (ln round6 : Q → Q) (word1 : str) (pos1 : option str) (sense1 : option Z)
    (word2 : str) (pos2 : option str) (sense2 : option Z)
    (L : RoWordNetLoader) :
  let candidates1 :=
    if str_truthy pos1 then with_pos pos1 (get_synsets_for_word L word1)
    else get_synsets_for_word L word1 in
  let candidates2 :=
    if str_truthy pos2 then with_pos pos2 (get_synsets_for_word L word2)
    else get_synsets_for_word L word2 in
  match calculate_similarity ln round6 word1 pos1 sense1 word2 pos2 sense2 L
  with
  | (inl _, L') => (candidates1 = [] ∨ candidates2 = []) ∧ L' = L
  | (inr (results, synsets1, synsets2), _) =>
      candidates1 ≠ [] ∧ candidates2 ≠ [] ∧
      algorithm <$> results =
        [U "PATH"; U "WUP"; U "LCH"; U "RES"; U "JCN"; U "LIN"; U "LESK";
         U "HSO"] ∧
      synsets1 ≠ [] ∧ synsets1 ⊆ candidates1 ∧
      synsets2 ≠ [] ∧ synsets2 ⊆ candidates2
  end.
Proof.
  intros candidates1 candidates2. unfold calculate_similarity.
  subst candidates1 candidates2.
  destruct (get_synsets_for_word L word1) as [|a1 r1] eqn:H1.
  { split; [left; by destruct (str_truthy pos1) | done]. }
  destruct (get_synsets_for_word L word2) as [|a2 r2] eqn:H2.
  { split; [right; by destruct (str_truthy pos2) | done]. }
  destruct (if str_truthy pos1 then with_pos pos1 (a1 :: r1) else a1 :: r1)
    as [|b1 q1] eqn:Hc1; [by split; [left|]|].
  destruct (if str_truthy pos2 then with_pos pos2 (a2 :: r2) else a2 :: r2)
    as [|b2 q2] eqn:Hc2; [by split; [right|]|].
  pose proof (similarity_results_algorithms round6
                (select_sense sense1 (b1 :: q1)) (select_sense sense2 (b2 :: q2))
                sense1 sense2 word1 word2 (get_algorithms ln) L) as Hnames.
  destruct (similarity_results round6 (select_sense sense1 (b1 :: q1))
              (select_sense sense2 (b2 :: q2)) sense1 sense2 word1 word2
              (get_algorithms ln) L) as [results L'].
  split_and!; try done.
  - by apply select_sense_nonempty.
  - apply select_sense_subseteq.
  - by apply select_sense_nonempty.
  - apply select_sense_subseteq.
Qed.

(** X20.  When neither word carries a sense number, the results of an
    accepted request and the loader afterwards are those of the same
    request without the part-of-speech tags: the tags decide acceptance and
    the synsets described, but every measure still reports its best pair
    over all candidates of the two words. *)
Theorem pos_tags_do_not_constrain_the_best_pair
    (ln round6 : Q → Q) (word1 : str) (pos1 : option str) (sense1 : option Z)
    (word2 : str) (pos2 : option str) (sense2 : option Z)
    (L L' : RoWordNetLoader) (results : list AlgorithmResult)
    (synsets1 synsets2 : list Synset) :
  truthy sense1 = false → truthy sense2 = false →
  calculate_similarity ln round6 word1 pos1 sense1 word2 pos2 sense2 L
    = (inr (results, synsets1, synsets2), L') →
  calculate_similarity ln round6 word1 None sense1 word2 None sense2 L
    = (inr (results, get_synsets_for_word L word1,
            get_synsets_for_word L word2), L') ∧
  similarity_results round6 [] [] None None word1 word2 (get_algorithms ln) L
    = (results, L').
Proof.
  intros Ht1 Ht2. unfold calculate_similarity. simpl str_truthy. cbv iota.
  assert (∀ S, select_sense sense1 S = S) as Hs1.
  { intros S. unfold select_sense, sense_in_range. by rewrite Ht1. }
  assert (∀ S, select_sense sense2 S = S) as Hs2.
  { intros S. unfold select_sense, sense_in_range. by rewrite Ht2. }
  rewrite !Hs1, !Hs2.
  destruct (get_synsets_for_word L word1) as [|a1 r1] eqn:H1; [done|].
  destruct (get_synsets_for_word L word2) as [|a2 r2] eqn:H2; [done|].
  destruct (if str_truthy pos1 then with_pos pos1 (a1 :: r1) else a1 :: r1)
    as [|b1 q1] eqn:Hc1; [done|].
  destruct (if str_truthy pos2 then with_pos pos2 (a2 :: r2) else a2 :: r2)
    as [|b2 q2] eqn:Hc2; [done|].
  rewrite (similarity_results_without_sense round6 (b1 :: q1) (b2 :: q2)
             (a1 :: r1) (a2 :: r2) sense1 sense2 sense1 sense2 word1 word2 _ L
             Ht1 Ht2 Ht1 Ht2).
  rewrite (similarity_results_without_sense round6 [] [] (a1 :: r1) (a2 :: r2)
             None None sense1 sense2 word1 word2 _ L eq_refl eq_refl Ht1 Ht2).
  destruct (similarity_results round6 (a1 :: r1) (a2 :: r2) sense1 sense2
              word1 word2 (get_algorithms ln) L) as [rs L1].
  intros [= <- <- <- <-]. done.
Qed.

Lemma pos_tags_do_not_constrain_the_best_pair_witness :
  ∃ results synsets1 synsets2 L',
    calculate_similarity (λ q, q) (λ q, q) (U "mare") (Some (U "n")) None
      (U "mic") None None (new_loader homonym_graph)
    = (inr (results, synsets1, synsets2), L') ∧
    calculate_similarity (λ q, q) (λ q, q) (U "mare") None None
      (U "mic") None None (new_loader homonym_graph)
    = (inr (results,
            get_synsets_for_word (new_loader homonym_graph) (U "mare"),
            get_synsets_for_word (new_loader homonym_graph) (U "mic")), L').
Proof.
  destruct (calculate_similarity (λ q, q) (λ q, q) (U "mare") (Some (U "n"))
              None (U "mic") None None (new_loader homonym_graph))
    as [[e|[[results synsets1] synsets2]] L'] eqn:Heq.
  { exfalso. vm_compute in Heq. discriminate Heq. }
  exists results, synsets1, synsets2, L'. split; [reflexivity|].
  exact (proj1 (pos_tags_do_not_constrain_the_best_pair (λ q, q) (λ q, q)
                  (U "mare") (Some (U "n")) None (U "mic") None None
                  (new_loader homonym_graph) L' results synsets1 synsets2
                  eq_refl eq_refl Heq)).
Defined.

(** * The same-synset score of LESK *)








(** * Part-of-speech filtering, from the request to the measure *)









Lemma select_sense_nil sense : select_sense sense [] = [].
Proof.
  unfold select_sense. destruct (sense_in_range sense []); [|done].
  unfold nth_sense. by rewrite lookup_nil.
Qed.





